(** * primalscheme: the tiling core of [multiplex.py]

    A shallow embedding of [MultiplexScheme], [Window] and [Region] from
    [src/primalscheme/multiplex.py], followed by the properties of the
    windowing, retry and pair selection logic.

    Conventions of the embedding.
    - Python integers are [Z]; penalties (Python floats that are only ever
      compared) are rationals [Q], which order finite floats faithfully.
    - A method that mutates [self], may raise and may log is a function
      [self -> result * self * log]: the state after the call is visible
      also when the call raises.
    - [logger.debug] calls are kept as a list of messages, in order.
    - [while] loops take a fuel argument and answer [OutOfFuel] when it is
      used up; nothing else produces [OutOfFuel].
    - The collaborators of [primalscheme.components] and [Bio.Seq] that are
      not part of this module are Section variables. *)

From Stdlib Require Import ZArith QArith Bool List Lia Ascii String.
From Stdlib Require Import Sorted Permutation.
From stdpp Require Import base list strings.
Import ListNotations.

Local Open Scope Z_scope.

(** ** Errors and results *)

Inductive exn : Type :=
  | NoSuitablePrimersError
  | SliceOutOfBoundsError
  | InsufficientPrimersError
  | IndexError
  | AttributeError
  | ValueError.

Inductive result (A : Type) : Type :=
  | Ok (a : A)
  | Raise (e : exn)
  | OutOfFuel.

Arguments Ok {A} a.
Arguments Raise {A} e.
Arguments OutOfFuel {A}.

(** Straight-line code that can raise but touches no object. *)
#[global] Instance result_ret : MRet result := fun _ a => Ok a.
#[global] Instance result_bind : MBind result := fun _ _ k r =>
  match r with
  | Ok a => k a
  | Raise e => Raise e
  | OutOfFuel => OutOfFuel
  end.

(** Attribute access on a value that may be [None]. *)
Definition attr {A} (o : option A) : result A :=
  match o with
  | Some a => Ok a
  | None => Raise AttributeError
  end.

(** ** Data model *)

(** A nucleotide sequence, one character per base. *)
Definition Seq : Type := list ascii.

(** The attributes of a candidate primer that this module reads:
    [start], [end], [penalty] and the formatted [alignments]. *)
Record Primer : Type := mkPrimer {
  start : Z;
  end_ : Z;
  penalty : Q;
  alignments : list string
}.

Record CandidatePrimerPair : Type := mkPair {
  left : Primer;
  right : Primer
}.

(** The two entries of the primer3 parameter dictionary that are read here. *)
Record P3Global : Type := mkP3 {
  PRIMER_PRODUCT_SIZE_RANGE : list (Z * Z);
  PRIMER_MAX_SIZE : Z
}.

(** [MultiplexScheme.__init__]: the constructor arguments.  [progress_func]
    records whether a callback was supplied; the calls it receives are kept
    in the result of [design_scheme].  The mutable attribute [regions] is
    part of that result as well. *)
Record MultiplexScheme : Type := mkScheme {
  references : list Seq;
  p3_global : P3Global;
  target_overlap : Z;
  step_distance : Z;
  min_unique : Z;
  prefix : string;
  progress_func : bool
}.

(** The derived attributes of the constructor.  [references[0]] and
    [PRIMER_PRODUCT_SIZE_RANGE[0]] raise on an empty list in Python, so
    that no scheme object exists then; the defaults below are never read
    for a scheme that was constructed. *)
Definition primary_ref (s : MultiplexScheme) : Seq :=
  nth 0 (references s) [].

Definition ref_len (s : MultiplexScheme) : Z :=
  Z.of_nat (length (primary_ref s)).

Definition amplicon_size_min (s : MultiplexScheme) : Z :=
  fst (nth 0 (PRIMER_PRODUCT_SIZE_RANGE (p3_global s)) (0, 0)).

Definition amplicon_size_max (s : MultiplexScheme) : Z :=
  snd (nth 0 (PRIMER_PRODUCT_SIZE_RANGE (p3_global s)) (0, 0)).

Definition amplicon_max_variation (s : MultiplexScheme) : Z :=
  amplicon_size_max s - amplicon_size_min s.

Definition primer_max_size (s : MultiplexScheme) : Z :=
  PRIMER_MAX_SIZE (p3_global s).

(** ** Log messages, one constructor per [logger.debug] call site *)

Inductive LogMsg : Type :=
  | LWindow (left_limit slice_start right_limit : Z)
  | LLeftLimit
  | LSteppingLeft (slice_start : Z)
  | LRightLimit
  | LSteppingRight (slice_start : Z)
  | LRegion (region_num pool : Z)
  | LFinding (slice_start slice_end : Z)
  | LPicked (pair : CandidatePrimerPair)
  | LAlignment (formatted : string)
  | LCandidate (i : nat) (pair : CandidatePrimerPair).

Definition Log : Type := list LogMsg.

(** ** A small state, error and log monad for the methods *)

Definition M (S A : Type) : Type := S -> result A * S * Log.

Definition ret {S A} (a : A) : M S A := fun s => (Ok a, s, []).

Definition bind {S A B} (m : M S A) (k : A -> M S B) : M S B :=
  fun s =>
    match m s with
    | (Ok a, s1, l1) =>
        match k a s1 with
        | (r, s2, l2) => (r, s2, l1 ++ l2)
        end
    | (Raise e, s1, l1) => (Raise e, s1, l1)
    | (OutOfFuel, s1, l1) => (OutOfFuel, s1, l1)
    end.

Definition raise {S A} (e : exn) : M S A := fun s => (Raise e, s, []).

Definition debug {S} (msg : LogMsg) : M S unit := fun s => (Ok tt, s, [msg]).

Definition get {S} : M S S := fun s => (Ok s, s, []).

Definition modify {S} (f : S -> S) : M S unit := fun s => (Ok tt, f s, []).

(** [try: m except handler]: the handler sees every exception and re-raises
    the ones its [except] clauses do not name. *)
Definition try_except {S A} (m : M S A) (handler : exn -> M S A) : M S A :=
  fun s =>
    match m s with
    | (Raise e, s1, l1) =>
        match handler e s1 with
        | (r, s2, l2) => (r, s2, l1 ++ l2)
        end
    | other => other
    end.

#[global] Instance M_ret {S} : MRet (M S) := fun _ a => ret a.
#[global] Instance M_bind {S} : MBind (M S) := fun _ _ k m => bind m k.

(** ** Python list helpers *)

(** [l[a:b]] with Python's treatment of negative and oversized indices. *)
Definition py_index_clamp (n i : Z) : Z :=
  if i <? 0 then Z.max (i + n) 0 else Z.min i n.

Definition py_slice {A} (l : list A) (a b : Z) : list A :=
  let n := Z.of_nat (length l) in
  let a' := py_index_clamp n a in
  let b' := py_index_clamp n b in
  firstn (Z.to_nat (b' - a')) (skipn (Z.to_nat a') l).

(** [l[-k]] for [k >= 1]; [None] stands for Python's IndexError. *)
Definition py_from_end {A} (l : list A) (k : nat) : option A :=
  rev l !! (k - 1)%nat.

(** ** Window *)

Record Window : Type := mkWindow {
  scheme : MultiplexScheme;
  left_limit : Z;
  slice_start : Z;
  right_limit : Z;
  _initial_slice_start : Z
}.

Definition set_slice_start (v : Z) (w : Window) : Window :=
  {| scheme := scheme w;
     left_limit := left_limit w;
     slice_start := v;
     right_limit := right_limit w;
     _initial_slice_start := _initial_slice_start w |}.

(** The property [slice_end]. *)
Definition slice_end (w : Window) : Z :=
  slice_start w + amplicon_size_max (scheme w).

(** The property [ref_slice]. *)
Definition ref_slice (w : Window) : Seq :=
  py_slice (primary_ref (scheme w)) (slice_start w) (slice_end w).

(** [right_limit or len(scheme.primary_ref.seq)]: [None] and [0] are both
    falsy in Python. *)
Definition right_limit_or_len (s : MultiplexScheme) (right_limit : option Z) : Z :=
  match right_limit with
  | Some r => if r =? 0 then ref_len s else r
  | None => ref_len s
  end.

(** [Window.__init__].  The attributes are assigned and the message logged
    before the bounds check; no object is returned when the check fails. *)
Definition Window_init (s : MultiplexScheme) (left_limit0 slice_start0 : Z)
    (right_limit0 : option Z) : result Window * Log :=
  let self := {| scheme := s;
                 left_limit := left_limit0;
                 slice_start := slice_start0;
                 right_limit := right_limit_or_len s right_limit0;
                 _initial_slice_start := slice_start0 |} in
  let log := [LWindow left_limit0 slice_start0 (right_limit self)] in
  if (slice_start0 <? left_limit0) || (slice_end self >? right_limit self)
  then (Raise SliceOutOfBoundsError, log)
  else (Ok self, log).

Definition step_left : M Window unit :=
  self ← get;
  let distance := step_distance (scheme self) in
  if slice_start self - distance <? left_limit self
  then debug LLeftLimit;; raise SliceOutOfBoundsError
  else modify (set_slice_start (slice_start self - distance));;
       self' ← get;
       debug (LSteppingLeft (slice_start self')).

Definition step_right : M Window unit :=
  self ← get;
  let distance := step_distance (scheme self) in
  if slice_end self + distance >? right_limit self
  then debug LRightLimit;; raise SliceOutOfBoundsError
  else modify (set_slice_start (slice_start self + distance));;
       self' ← get;
       debug (LSteppingRight (slice_start self')).

Definition reset_slice : M Window unit :=
  modify (fun self => set_slice_start (_initial_slice_start self) self).

(** ** Candidate filtering, pair ranking *)

(** [l.remove(x)] for the object [x] that sits at position [idx] of [l].
    [list.remove] drops the first element that is [x] or equals it.  The
    candidates are objects that compare by identity, and the objects of a
    direction are distinct (the design engine makes each of them), so that
    element is [x] itself: the one at position [idx].  [None] stands for
    Python's ValueError when [l] has no such position. *)
Definition py_remove (idx : nat) (l : list Primer) : option (list Primer) :=
  match l !! idx with
  | Some _ => Some (delete idx l)
  | None => None
  end.

(** [a > b] on penalties. *)
Definition Qgtb (a b : Q) : bool := negb (Qle_bool a b).

Definition PENALTY_THRESHOLD : Q := 5.

(** What [primer.align(references)] leaves behind: the candidate object
    as mutated by the call, and whether FailedAlignmentError was raised. *)
Inductive aligned : Type :=
  | Aligned (primer : Primer)
  | FailedAlignmentError (primer : Primer).

(** [list.sort(key=...)] is a stable sort; insertion from the right, placing
    an element before the first one whose key is not smaller, is one. *)
Section Sort.
Context {A : Type} (key : A -> Q).

Fixpoint insert_by_key (x : A) (l : list A) : list A :=
  match l with
  | [] => [x]
  | y :: l' =>
      if Qle_bool (key x) (key y) then x :: y :: l'
      else y :: insert_by_key x l'
  end.

Fixpoint sort_by_key (l : list A) : list A :=
  match l with
  | [] => []
  | x :: l' => insert_by_key x (sort_by_key l')
  end.

(** The order the sort establishes. *)
Definition key_le (a b : A) : Prop := (key a <= key b)%Q.
End Sort.

(** ** Region *)

Record Region : Type := mkRegion {
  window :> Window;
  region_num : Z;
  pool : Z;
  candidate_pairs : list CandidatePrimerPair;
  top_pair : option CandidatePrimerPair
}.

Definition set_window (w : Window) (r : Region) : Region :=
  {| window := w;
     region_num := region_num r;
     pool := pool r;
     candidate_pairs := candidate_pairs r;
     top_pair := top_pair r |}.

Definition set_candidate_pairs (v : list CandidatePrimerPair) (r : Region) : Region :=
  {| window := window r;
     region_num := region_num r;
     pool := pool r;
     candidate_pairs := v;
     top_pair := top_pair r |}.

Definition set_top_pair (v : option CandidatePrimerPair) (r : Region) : Region :=
  {| window := window r;
     region_num := region_num r;
     pool := pool r;
     candidate_pairs := candidate_pairs r;
     top_pair := v |}.

(** A [Window] method called on a [Region]. *)
Definition on_window {A} (m : M Window A) : M Region A :=
  fun r =>
    match m (window r) with
    | (res, w, l) => (res, set_window w r, l)
    end.

Fixpoint debug_all {S} (msgs : list LogMsg) : M S unit :=
  match msgs with
  | [] => mret tt
  | m :: msgs' => debug m;; debug_all msgs'
  end.

(** [Region.__init__]. *)
Definition Region_init (region_num0 : Z) (s : MultiplexScheme)
    (left_limit0 slice_start0 : Z) (right_limit0 : option Z) : result Region * Log :=
  let pool0 := if region_num0 mod 2 =? 1 then 1 else 2 in
  match Window_init s left_limit0 slice_start0 right_limit0 with
  | (Ok w, l) =>
      (Ok {| window := w;
             region_num := region_num0;
             pool := pool0;
             candidate_pairs := [];
             top_pair := None |},
       l ++ [LRegion region_num0 pool0])
  | (Raise e, l) => (Raise e, l)
  | (OutOfFuel, l) => (OutOfFuel, l)
  end.

(** The messages [_pick_pair] logs for the pair [p] it picked, in order. *)
Definition picked_log (p : CandidatePrimerPair) (sorted : list CandidatePrimerPair)
    : Log :=
  LPicked p :: map LAlignment (alignments (left p)) ++
  map LAlignment (alignments (right p)) ++
  imap LCandidate (take 10 sorted).

(** What a pass of the [while True] loop of [find_primers] decides. *)
Inductive loop_ctl : Type :=
  | Break
  | Continue (exhausted_left : bool).

Section Collaborators.

(** [design_primers(seq, offset, p3_global, reverse)] *)
Variable design_primers : Seq -> Z -> P3Global -> bool -> list Primer.
(** [Bio.Seq.Seq.reverse_complement] *)
Variable reverse_complement : Seq -> Seq.
(** [CandidatePrimer.align] *)
Variable align : Primer -> list Seq -> aligned.
(** [CandidatePrimerPair.combined_penalty] *)
Variable combined_penalty : CandidatePrimerPair -> Q.

(** The loop [for primer in direction: ...] of [_find_primers_for_slice].
    The list iterator holds an index [idx] into [direction], which the
    body shrinks while it is being scanned.  [n] bounds the number of
    passes that are left; [length direction] passes always suffice. *)
Fixpoint filter_from (refs : list Seq) (n idx : nat) (direction : list Primer)
    : result (list Primer) :=
  match n with
  | O => Ok direction
  | S n' =>
      match direction !! idx with
      | None => Ok direction
      | Some primer =>
          match align primer refs with
          | Aligned primer' =>
              let direction' := <[idx := primer']> direction in
              if Qgtb (penalty primer') PENALTY_THRESHOLD then
                match py_remove idx direction' with
                | Some d => filter_from refs n' (S idx) d
                | None => Raise ValueError
                end
              else filter_from refs n' (S idx) direction'
          | FailedAlignmentError primer' =>
              let direction' := <[idx := primer']> direction in
              match py_remove idx direction' with
              | Some d => filter_from refs n' (S idx) d
              | None => Raise ValueError
              end
          end
      end
  end.

Definition filter_direction (refs : list Seq) (direction : list Primer)
    : result (list Primer) :=
  filter_from refs (length direction) 0 direction.

(** The list comprehension building [candidate_pairs]. *)
Definition cross_product (lefts rights : list Primer) : list CandidatePrimerPair :=
  flat_map (fun l => map (fun r => mkPair l r) rights) lefts.

Definition _sort_candidate_pairs : M Region unit :=
  modify (fun self =>
    set_candidate_pairs (sort_by_key combined_penalty (candidate_pairs self)) self).

Definition _pick_pair : M Region unit :=
  _sort_candidate_pairs;;
  get ≫= λ self : Region,
  match candidate_pairs self with
  | [] => raise IndexError
  | p :: _ =>
      modify (set_top_pair (Some p));;
      debug (LPicked p);;
      debug_all (map LAlignment (alignments (left p)));;
      debug_all (map LAlignment (alignments (right p)));;
      debug_all (imap LCandidate (take 10 (candidate_pairs self)))
  end.

Definition lift_result {S A} (r : result A) : M S A :=
  fun s => (r, s, []).

(** The tuple [candidates] once both [extend] calls have run. *)
Definition designed_candidates (self : Region) : list Primer * list Primer :=
  let p3 := p3_global (scheme self) in
  let fwd := design_primers (ref_slice self) (slice_start self) p3 false in
  let rev_slice := reverse_complement (ref_slice self) in
  let rev := design_primers rev_slice (slice_start self) p3 true in
  (fwd, rev).

(** [for direction in candidates: for primer in direction: ...] *)
Definition filter_candidates (refs : list Seq) (candidates : list Primer * list Primer)
    : result (list Primer * list Primer) :=
  lefts ← filter_direction refs (fst candidates);
  rights ← filter_direction refs (snd candidates);
  Ok (lefts, rights).

(** [any(not direction for direction in candidates)] *)
Definition any_empty (candidates : list Primer * list Primer) : bool :=
  match candidates with
  | ([], _) | (_, []) => true
  | _ => false
  end.

Definition _find_primers_for_slice : M Region unit :=
  get ≫= λ self : Region,
  debug (LFinding (slice_start self) (slice_end self));;
  candidates ← lift_result
    (filter_candidates (references (scheme self)) (designed_candidates self));
  if any_empty candidates then raise InsufficientPrimersError
  else modify (set_candidate_pairs
                 (cross_product (fst candidates) (snd candidates)));;
       _pick_pair.

Fixpoint find_primers_loop (fuel : nat) (exhausted_left : bool) : M Region unit :=
  match fuel with
  | O => lift_result OutOfFuel
  | S fuel' =>
      ctl ← try_except (_find_primers_for_slice;; mret Break)
        (fun e =>
           match e with
           | InsufficientPrimersError =>
               if exhausted_left then
                 try_except (on_window step_right;; mret (Continue true))
                   (fun e' =>
                      match e' with
                      | SliceOutOfBoundsError => raise NoSuitablePrimersError
                      | _ => raise e'
                      end)
               else
                 try_except (on_window step_left;; mret (Continue false))
                   (fun e' =>
                      match e' with
                      | SliceOutOfBoundsError =>
                          on_window reset_slice;; mret (Continue true)
                      | _ => raise e'
                      end)
           | _ => raise e
           end);
      match ctl with
      | Break => mret tt
      | Continue ex => find_primers_loop fuel' ex
      end
  end.

Definition find_primers (fuel : nat) : M Region unit :=
  find_primers_loop fuel false.

(** *** The orchestrator *)

(** [design_scheme]: the left limit of the next region. *)
Definition next_left_limit (region_num0 : Z)
    (prev prev_in_pool : option CandidatePrimerPair) : result Z :=
  if region_num0 =? 1 then Ok 0
  else
    forced ← (if region_num0 =? 2 then Ok true
              else p ← attr prev;
                   q ← attr prev_in_pool;
                   Ok (start (left p) >? start (right q)));
    if forced : bool then
      p ← attr prev; Ok (end_ (left p) + 1)
    else
      q ← attr prev_in_pool; Ok (start (right q) + 1).

(** [design_scheme]: the slice start of the next region and the new value
    of [is_last]. *)
Definition next_slice_start (self : MultiplexScheme) (region_num0 : Z)
    (prev : option CandidatePrimerPair) (left_limit0 : Z) (is_last0 : bool)
    : result (Z * bool) :=
  if region_num0 =? 1 then Ok (0, is_last0)
  else
    p ← attr prev;
    let insert_start := end_ (right p) - target_overlap self - 1 in
    let slice_start0 :=
      insert_start - primer_max_size self - amplicon_max_variation self in
    let slice_start1 := Z.max slice_start0 left_limit0 in
    let remaining_distance := ref_len self - start (right p) in
    let is_last1 := remaining_distance <=? amplicon_size_max self in
    if is_last1 then
      let right_aligned := ref_len self - amplicon_size_max self in
      Ok (Z.min slice_start1 right_aligned, is_last1)
    else Ok (slice_start1, is_last1).

(** The local variables of [design_scheme] that live across passes. *)
Record Loop : Type := mkLoop {
  regions : list Region;
  cur_region_num : Z;
  is_last : bool
}.

(** How one pass of [while not is_last] ends. *)
Inductive pass : Type :=
  | Appended (st : Loop) (calls : list (Z * Z))
  | Broke
  | Raised (e : exn)
  | Diverged.

(** The first half of a pass: [region_num], [prev], [prev_in_pool] and from
    them the left limit, the slice start and the new [is_last]. *)
Definition region_args (self : MultiplexScheme) (st : Loop) : result (Z * Z * bool) :=
  let region_num0 := cur_region_num st + 1 in
  let prev :=
    match last (regions st) with
    | Some r => top_pair r
    | None => None
    end in
  prev_in_pool ←
    (if region_num0 >? 2 then
       match py_from_end (regions st) 2 with
       | Some r => Ok (top_pair r)
       | None => Raise IndexError
       end
     else Ok None);
  left_limit0 ← next_left_limit region_num0 prev prev_in_pool;
  '(slice_start0, is_last0) ←
    next_slice_start self region_num0 prev left_limit0 (is_last st);
  Ok (left_limit0, slice_start0, is_last0).

Definition design_pass (self : MultiplexScheme) (fuel : nat) (st : Loop)
    : pass * Log :=
  let region_num0 := cur_region_num st + 1 in
  match region_args self st with
  | Ok (left_limit0, slice_start0, is_last0) =>
      match Region_init region_num0 self left_limit0 slice_start0 None with
      | (Ok region, l0) =>
          match find_primers fuel region with
          | (Ok _, region', l1) =>
              let st' := {| regions := regions st ++ [region'];
                            cur_region_num := region_num0;
                            is_last := is_last0 |} in
              if progress_func self then
                match top_pair region' with
                | Some tp =>
                    (Appended st' [(start (right tp), ref_len self)], l0 ++ l1)
                | None => (Raised AttributeError, l0 ++ l1)
                end
              else (Appended st' [], l0 ++ l1)
          | (Raise NoSuitablePrimersError, _, l1) =>
              if region_num0 =? 1
              then (Raised NoSuitablePrimersError, l0 ++ l1)
              else (Broke, l0 ++ l1)
          | (Raise e, _, l1) => (Raised e, l0 ++ l1)
          | (OutOfFuel, _, l1) => (Diverged, l0 ++ l1)
          end
      | (Raise e, l0) => (Raised e, l0)
      | (OutOfFuel, l0) => (Diverged, l0)
      end
  | Raise e => (Raised e, [])
  | OutOfFuel => (Diverged, [])
  end.

(** The [while not is_last] loop: the final value of the local [regions],
    the calls made to the progress callback, and the log. *)
Fixpoint design_loop (self : MultiplexScheme) (inner fuel : nat) (st : Loop)
    : result (list Region) * list (Z * Z) * Log :=
  if is_last st then (Ok (regions st), [], [])
  else
    match fuel with
    | O => (OutOfFuel, [], [])
    | S fuel' =>
        match design_pass self inner st with
        | (Appended st' calls, l) =>
            match design_loop self inner fuel' st' with
            | (r, calls', l') => (r, calls ++ calls', l ++ l')
            end
        | (Broke, l) => (Ok (regions st), [], l)
        | (Raised e, l) => (Raise e, [], l)
        | (Diverged, l) => (OutOfFuel, [], l)
        end
    end.

(** What a call of [design_scheme] leaves behind: how it ended, the
    attribute [self.regions], the calls received by the progress
    callback, and the log. *)
Record Run : Type := mkRun {
  outcome : result unit;
  scheme_regions : list Region;
  progress_calls : list (Z * Z);
  run_log : Log
}.

Definition initial_loop : Loop :=
  {| regions := []; cur_region_num := 0; is_last := false |}.

(** [design_scheme].  [self.regions] is the empty list of the constructor
    until the assignment after the loop.  [fuel] bounds the passes of each
    of the two loops. *)
Definition design_scheme (self : MultiplexScheme) (fuel : nat) : Run :=
  match design_loop self fuel fuel initial_loop with
  | (Ok rs, calls, l) =>
      {| outcome := Ok tt;
         scheme_regions := rs;
         progress_calls :=
           calls ++ (if progress_func self
                     then [(ref_len self, ref_len self)] else []);
         run_log := l |}
  | (Raise e, calls, l) =>
      {| outcome := Raise e;
         scheme_regions := [];
         progress_calls := calls;
         run_log := l |}
  | (OutOfFuel, calls, l) =>
      {| outcome := OutOfFuel;
         scheme_regions := [];
         progress_calls := calls;
         run_log := l |}
  end.

(** The state of the loop after [k] passes that each appended a region;
    [None] when the run does not get that far. *)
Fixpoint passes (self : MultiplexScheme) (inner : nat) (k : nat) : option Loop :=
  match k with
  | O => Some initial_loop
  | S k' =>
      match passes self inner k' with
      | Some st =>
          if is_last st then None
          else match design_pass self inner st with
               | (Appended st' _, _) => Some st'
               | _ => None
               end
      | None => None
      end
  end.

(** Pass [cur_region_num st + 1] constructs its region and [find_primers]
    ends in the terminal NoSuitablePrimers error. *)
Definition no_suitable_primers_at (self : MultiplexScheme) (inner : nat) (st : Loop)
    : Prop :=
  exists ll ss il region l0 region' l1,
    region_args self st = Ok (ll, ss, il) /\
    Region_init (cur_region_num st + 1) self ll ss None = (Ok region, l0) /\
    find_primers inner region = (Raise NoSuitablePrimersError, region', l1).

(** The same, as a test that can be run. *)
Definition no_suitable_primers_atb (self : MultiplexScheme) (inner : nat) (st : Loop)
    : bool :=
  match region_args self st with
  | Ok (ll, ss, _) =>
      match Region_init (cur_region_num st + 1) self ll ss None with
      | (Ok region, _) =>
          match find_primers inner region with
          | (Raise NoSuitablePrimersError, _, _) => true
          | _ => false
          end
      | _ => false
      end
  | _ => false
  end.

End Collaborators.


(** ** Vocabulary of the statements *)

(** A result with further messages logged before it. *)
Definition prepend_log {S A} (l0 : Log) (x : result A * S * Log)
    : result A * S * Log :=
  match x with
  | (res, s, l) => (res, s, l0 ++ l)
  end.

(** The result of the rest of the loop of [design_scheme], after passes
    that made the calls [c0] and logged [l0]. *)
Definition prepend_run {A} (c0 : list (Z * Z)) (l0 : Log)
    (x : result A * list (Z * Z) * Log) : result A * list (Z * Z) * Log :=
  match x with
  | (res, c, l) => (res, c0 ++ c, l0 ++ l)
  end.

(** The region with its window moved to [v]. *)
Definition moved_to (v : Z) (r : Region) : Region :=
  set_window (set_slice_start v r) r.

(** Messages of a single-slice attempt starting. *)
Definition is_finding (m : LogMsg) : bool :=
  match m with
  | LFinding _ _ => true
  | _ => false
  end.

(** Messages of the right-stepping branch. *)
Definition is_right_move (m : LogMsg) : bool :=
  match m with
  | LSteppingRight _ | LRightLimit => true
  | _ => false
  end.

(** Messages of the stepping logic of either direction. *)
Definition is_move (m : LogMsg) : bool :=
  match m with
  | LSteppingLeft _ | LLeftLimit | LSteppingRight _ | LRightLimit => true
  | _ => false
  end.

(** The number of single-slice attempts a log records. *)
Fixpoint attempts (l : Log) : nat :=
  match l with
  | [] => 0
  | m :: l' => ((if is_finding m then 1 else 0) + attempts l')%nat
  end.

(** How a terminated run of [find_primers] can end: with a pair selected,
    or with the terminal error. *)
Definition terminal (res : result unit) (r : Region) : Prop :=
  (res = Ok tt /\ exists p, top_pair r = Some p) \/
  res = Raise NoSuitablePrimersError.

(** The attributes of a region that [find_primers] never assigns. *)
Definition same_frame (r r' : Region) : Prop :=
  scheme r' = scheme r /\ left_limit r' = left_limit r /\
  right_limit r' = right_limit r /\
  _initial_slice_start r' = _initial_slice_start r /\
  region_num r' = region_num r /\ pool r' = pool r.

(** A bound on the attempts of [find_primers] on a region, for any positive
    step distance: the room to the left of the slice, the room to the right
    of the initial slice, and one attempt at the end of either direction. *)
Definition right_room (r : Region) (from : Z) : nat :=
  Z.to_nat (right_limit r - (from + amplicon_size_max (scheme r))).

Definition attempts_bound (r : Region) : nat :=
  (Z.to_nat (slice_start r - left_limit r) + 1 +
   (right_room r (_initial_slice_start r) + 1))%nat.

(** The slice start that realises the target overlap with the pair [prev]
    of the previous region. *)
Definition target_slice_start (self : MultiplexScheme) (prev : CandidatePrimerPair) : Z :=
  end_ (right prev) - target_overlap self - 1 - primer_max_size self
  - (amplicon_size_max self - amplicon_size_min self).

(** The rest of the reference, from the right primer of [prev], fits in
    one amplicon. *)
Definition few_bases_left (self : MultiplexScheme) (prev : CandidatePrimerPair) : bool :=
  ref_len self - start (right prev) <=? amplicon_size_max self.

(** The left limit that follows the pair [prev] of the previous region and
    the pair of the region before it, if there is one. *)
Definition left_limit_after (prev : CandidatePrimerPair)
    (prev_in_pool : option CandidatePrimerPair) : Z :=
  match prev_in_pool with
  | None => end_ (left prev) + 1
  | Some q =>
      if start (left prev) >? start (right q) then end_ (left prev) + 1
      else start (right q) + 1
  end.

Definition slice_start_after (self : MultiplexScheme) (prev : CandidatePrimerPair)
    (ll : Z) : Z :=
  let s := Z.max (target_slice_start self prev) ll in
  if few_bases_left self prev
  then Z.min s (ref_len self - amplicon_size_max self)
  else s.

(** The end of either primer of the pair of [r] is not before its start. *)
Definition ends_ordered (r : Region) : bool :=
  match top_pair r with
  | Some p =>
      (start (left p) <=? end_ (left p)) && (start (right p) <=? end_ (right p))
  | None => true
  end.

(** What every state of the loop of [design_scheme] satisfies: the regions
    are numbered from 1 in order, each has its pair, and the left limit of
    each region from the third on was derived from the two before it. *)
Definition well_formed (st : Loop) : Prop :=
  cur_region_num st = Z.of_nat (length (regions st)) /\
  (forall (i : nat) (r : Region), regions st !! i = Some r ->
     region_num r = Z.of_nat i + 1 /\ exists p, top_pair r = Some p) /\
  (forall (i : nat) (r0 r1 r2 : Region) p0 p1,
     regions st !! i = Some r0 ->
     regions st !! S i = Some r1 ->
     regions st !! S (S i) = Some r2 ->
     top_pair r0 = Some p0 ->
     top_pair r1 = Some p1 ->
     left_limit r2 = left_limit_after p1 (Some p0)).

(** The bounds of a window: the slice and the slice of construction time
    lie between the two limits. *)
Definition in_bounds (w : Window) : Prop :=
  left_limit w <= slice_start w /\ slice_end w <= right_limit w /\
  left_limit w <= _initial_slice_start w /\
  _initial_slice_start w + amplicon_size_max (scheme w) <= right_limit w.

(** The candidate object as [align] leaves it. *)
Definition aligned_primer (a : aligned) : Primer :=
  match a with
  | Aligned p => p
  | FailedAlignmentError p => p
  end.

(** The pair of the region at index [i] of a list of regions. *)
Definition pair_at (rs : list Region) (i : nat) : option CandidatePrimerPair :=
  match rs !! i with
  | Some r => top_pair r
  | None => None
  end.

(** The calls a progress callback receives for a list of designed regions. *)
Definition progress_of (self : MultiplexScheme) (rs : list Region) : list (Z * Z) :=
  flat_map (fun r : Region =>
              match top_pair r with
              | Some p => [(start (right p), ref_len self)]
              | None => []
              end) rs.

(** A primer that starts at or after [offset] and does not end before it
    starts. *)
Definition placed (offset : Z) (p : Primer) : Prop :=
  offset <= start p /\ start p <= end_ p.

(** Fuel that is enough for [design_scheme] when left primers are placed
    inside their slice: the number of positions a window can take, plus
    two. *)
Definition design_fuel (self : MultiplexScheme) : nat :=
  (Z.to_nat (ref_len self - amplicon_size_max self) + 2)%nat.

(** A message of a single-slice attempt names a slice of the window [w]
    that lies within the limits. *)
Definition finding_within (w : Window) (m : LogMsg) : Prop :=
  match m with
  | LFinding s e =>
      left_limit w <= s /\ e = s + amplicon_size_max (scheme w) /\
      e <= right_limit w
  | _ => True
  end.

(** ** Concrete collaborators and schemes used by the examples *)

Module Fixture.

Definition primer (s e : Z) (q : Q) : Primer := mkPrimer s e q [].

(** An aligner that accepts every candidate and leaves it unchanged. *)
Definition align_all (p : Primer) (_ : list Seq) : aligned := Aligned p.

(** The sum of the two individual penalties. *)
Definition penalty_sum (pr : CandidatePrimerPair) : Q :=
  (penalty (left pr) + penalty (right pr))%Q.

Definition is_N (c : ascii) : bool := bool_decide (c = "N"%char).

(** A design engine that finds one primer at each end of a 30-base slice,
    unless the slice contains an unknown base. *)
Definition design_one (seq : Seq) (offset : Z) (_ : P3Global) (reverse : bool)
    : list Primer :=
  if existsb is_N seq then []
  else if reverse then [primer (offset + 27) (offset + 29) 1]
  else [primer offset (offset + 3) 1].

(** A design engine whose candidates all exceed the penalty threshold on
    the left side. *)
Definition design_poor_left (_ : Seq) (offset : Z) (_ : P3Global) (reverse : bool)
    : list Primer :=
  if reverse then [primer (offset + 27) (offset + 29) 1]
  else [primer offset (offset + 3) 6; primer (offset + 1) (offset + 4) 7].

(** A design engine with two candidates on either side, and ties between
    the combined penalties. *)
Definition design_two (_ : Seq) (offset : Z) (_ : P3Global) (reverse : bool)
    : list Primer :=
  if reverse then [primer (offset + 27) (offset + 29) 1;
                   primer (offset + 26) (offset + 28) 1]
  else [primer offset (offset + 3) 1; primer (offset + 1) (offset + 4) (1 # 2)].

Definition complement (c : ascii) : ascii :=
  if bool_decide (c = "A"%char) then "T"%char
  else if bool_decide (c = "T"%char) then "A"%char
  else if bool_decide (c = "C"%char) then "G"%char
  else if bool_decide (c = "G"%char) then "C"%char
  else c.

Definition reverse_complement (seq : Seq) : Seq := rev (map complement seq).

Definition scheme_of (reference : Seq) : MultiplexScheme :=
  mkScheme [reference] (mkP3 [(20, 30)] 3) 4 5 0 "scheme" true.

Definition bases (c : ascii) (n : nat) : Seq := repeat c n.

Definition window_20 : Window :=
  {| scheme := scheme_of (bases "A" 100);
     left_limit := 0;
     slice_start := 20;
     right_limit := 100;
     _initial_slice_start := 20 |}.

Definition region_at (num : Z) (reference : Seq) (ll ss : Z) : Region :=
  {| window := {| scheme := scheme_of reference;
                  left_limit := ll;
                  slice_start := ss;
                  right_limit := 100;
                  _initial_slice_start := ss |};
     region_num := num;
     pool := if num mod 2 =? 1 then 1 else 2;
     candidate_pairs := [];
     top_pair := None |}.

(** A reference whose last 40 bases are unknown, one whose first 60 are,
    and one whose last 30 are. *)
Definition unknown_tail : Seq := bases "A" 60 ++ bases "N" 40.
Definition unknown_head : Seq := bases "N" 60 ++ bases "A" 40.
Definition unknown_end : Seq := bases "A" 70 ++ bases "N" 30.

Definition run (reference : Seq) (fuel : nat) : Run :=
  design_scheme design_one reverse_complement align_all penalty_sum
    (scheme_of reference) fuel.

Definition state_after (reference : Seq) (fuel k : nat) : Loop :=
  default initial_loop
    (passes design_one reverse_complement align_all penalty_sum
       (scheme_of reference) fuel k).

Definition retry (fuel : nat) (r : Region) : result unit * Region * Log :=
  find_primers design_one reverse_complement align_all penalty_sum fuel r.

(** A second region on [unknown_head], two steps away from its left limit. *)
Definition stuck_region : Region := region_at 2 unknown_head 4 11.

(** A region of a scheme whose step distance is 0, on unknown bases. *)
Definition still_region : Region :=
  {| window := {| scheme := mkScheme [bases "N" 100] (mkP3 [(20, 30)] 3) 4 0 0
                              "scheme" true;
                  left_limit := 0;
                  slice_start := 0;
                  right_limit := 100;
                  _initial_slice_start := 0 |};
     region_num := 1;
     pool := 1;
     candidate_pairs := [];
     top_pair := None |}.

Definition region_of (r : Run) (n : nat) : Region :=
  nth n (scheme_regions r) (region_at 0 [] 0 0).

Definition pair_of (r : Region) : CandidatePrimerPair :=
  default (mkPair (primer 0 0 0) (primer 0 0 0)) (top_pair r).

(** Candidates that all pass the filter, and candidates of which every
    other one is examined. *)
Definition good_candidates : list Primer :=
  [primer 0 3 1; primer 1 4 5; primer 2 5 (9 # 2)].

Definition window_on (reference : Seq) (ll ss : Z) : Window :=
  {| scheme := scheme_of reference;
     left_limit := ll;
     slice_start := ss;
     right_limit := 100;
     _initial_slice_start := ss |}.

Definition attempt_one (r : Region) : result unit * Region * Log :=
  _find_primers_for_slice design_one reverse_complement align_all penalty_sum r.

(** A region on unknown bases only. *)
Definition hopeless_region : Region := region_at 1 (bases "N" 100) 0 0.

Definition full_scheme : MultiplexScheme := scheme_of (bases "A" 100).

End Fixture.

(** * Properties *)

(** ** The monad, unfolded *)

Ltac unfold_M :=
  unfold mbind, M_bind, mret, M_ret, result_bind, result_ret,
    bind, ret, get, modify, debug, raise, try_except, lift_result, on_window in *.

(** ** Window *)

Lemma step_left_spec (w : Window) :
  step_left w =
    if slice_start w - step_distance (scheme w) <? left_limit w
    then (Raise SliceOutOfBoundsError, w, [LLeftLimit])
    else (Ok tt,
          set_slice_start (slice_start w - step_distance (scheme w)) w,
          [LSteppingLeft (slice_start w - step_distance (scheme w))]).
Proof.
  unfold step_left. unfold_M.
  destruct (slice_start w - step_distance (scheme w) <? left_limit w); reflexivity.
Qed.

Lemma step_right_spec (w : Window) :
  step_right w =
    if slice_end w + step_distance (scheme w) >? right_limit w
    then (Raise SliceOutOfBoundsError, w, [LRightLimit])
    else (Ok tt,
          set_slice_start (slice_start w + step_distance (scheme w)) w,
          [LSteppingRight (slice_start w + step_distance (scheme w))]).
Proof.
  unfold step_right. unfold_M.
  destruct (slice_end w + step_distance (scheme w) >? right_limit w); reflexivity.
Qed.

Lemma reset_slice_spec (w : Window) :
  reset_slice w = (Ok tt, set_slice_start (_initial_slice_start w) w, []).
Proof. reflexivity. Qed.

Lemma set_slice_start_same (w : Window) : set_slice_start (slice_start w) w = w.
Proof. destruct w; reflexivity. Qed.

(** [reset_slice] is idempotent. *)
Lemma reset_slice_idempotent (w w1 : Window) (l : Log) :
  reset_slice w = (Ok tt, w1, l) -> reset_slice w1 = (Ok tt, w1, []).
Proof.
  rewrite reset_slice_spec. intros [= <- _].
  rewrite reset_slice_spec. reflexivity.
Qed.

(** The window as the constructor leaves it satisfies the bounds. *)
Lemma Window_init_ok (s : MultiplexScheme) (ll ss : Z) (rl : option Z)
    (w : Window) (l : Log) :
  Window_init s ll ss rl = (Ok w, l) ->
  scheme w = s /\ left_limit w = ll /\ slice_start w = ss /\
  _initial_slice_start w = ss /\ right_limit w = right_limit_or_len s rl /\
  ll <= ss /\ slice_end w <= right_limit w.
Proof.
  unfold Window_init.
  destruct (_ || _) eqn:E; [discriminate|].
  intros [= <- _]. apply orb_false_iff in E as [E1 E2].
  unfold slice_end in *. simpl in *. repeat split; lia.
Qed.

(** Construction fails on a violated bound, for a right limit that is
    omitted or is not zero. *)
Lemma Window_init_raises (s : MultiplexScheme) (ll ss : Z) (rl : option Z) :
  rl <> Some 0 ->
  ss < ll \/ ss + amplicon_size_max s > default (ref_len s) rl ->
  Window_init s ll ss rl =
    (Raise SliceOutOfBoundsError, [LWindow ll ss (default (ref_len s) rl)]).
Proof.
  intros Hrl Hb. unfold Window_init.
  assert (right_limit_or_len s rl = default (ref_len s) rl) as ->.
  { destruct rl as [r|]; simpl; [|reflexivity].
    destruct (Z.eqb_spec r 0); [congruence|reflexivity]. }
  unfold slice_end. simpl.
  destruct (_ || _) eqn:E; [reflexivity|].
  apply orb_false_iff in E as [E1 E2]. lia.
Qed.

(** C8.  The claim asks that construction fails whenever
    [slice_start + max_amplicon_size > right_limit], also for an explicitly
    supplied right limit.  With the explicit right limit [0] the bound is
    violated ([0 + 30 > 0]), yet [right_limit or len(...)] replaces the
    falsy [0] by the reference length and the window is constructed. *)
Theorem Window_init_zero_right_limit_accepted :
  let s := Fixture.scheme_of (Fixture.bases "A" 100) in
  0 + amplicon_size_max s > 0 /\
  Window_init s 0 0 (Some 0) =
    (Ok {| scheme := s; left_limit := 0; slice_start := 0;
           right_limit := 100; _initial_slice_start := 0 |},
     [LWindow 0 0 100]).
Proof. split; reflexivity. Qed.

(** C9.  A successful [step_left] followed by a successful [step_right]
    restores [slice_start] (indeed the whole window); a step that would
    cross its limit raises the bounds error and leaves the window as it
    was; and a step raises nothing else. *)
Theorem step_left_step_right_restores (w : Window) :
  (forall w1 l1 w2 l2,
      step_left w = (Ok tt, w1, l1) ->
      step_right w1 = (Ok tt, w2, l2) ->
      slice_start w2 = slice_start w /\ w2 = w) /\
  (slice_start w - step_distance (scheme w) < left_limit w ->
      step_left w = (Raise SliceOutOfBoundsError, w, [LLeftLimit])) /\
  (slice_end w + step_distance (scheme w) > right_limit w ->
      step_right w = (Raise SliceOutOfBoundsError, w, [LRightLimit])) /\
  (forall e w' l, step_left w = (Raise e, w', l) \/ step_right w = (Raise e, w', l) ->
      e = SliceOutOfBoundsError /\ w' = w).
Proof.
  repeat split.
  - revert H H0. rewrite step_left_spec.
    destruct (_ <? _); [discriminate|]. intros [= <- _].
    rewrite step_right_spec. destruct (_ >? _); [discriminate|].
    intros [= <- _]. simpl. lia.
  - revert H H0. rewrite step_left_spec.
    destruct (_ <? _); [discriminate|]. intros [= <- _].
    rewrite step_right_spec. destruct (_ >? _); [discriminate|].
    intros [= <- _]. destruct w; unfold set_slice_start; simpl. f_equal. lia.
  - intros H. rewrite step_left_spec.
    destruct (Z.ltb_spec (slice_start w - step_distance (scheme w)) (left_limit w));
      [reflexivity|lia].
  - intros H. rewrite step_right_spec.
    destruct (slice_end w + step_distance (scheme w) >? right_limit w) eqn:E;
      [reflexivity|lia].
  - destruct H as [H|H]; revert H;
      rewrite ?step_left_spec, ?step_right_spec;
      destruct (_ <? _) || destruct (_ >? _); congruence.
  - destruct H as [H|H]; revert H;
      rewrite ?step_left_spec, ?step_right_spec;
      destruct (_ <? _) || destruct (_ >? _); congruence.
Qed.

Lemma step_left_step_right_restores_witness :
  (slice_start (set_slice_start (15 + 5) (set_slice_start (20 - 5) Fixture.window_20))
     = slice_start Fixture.window_20 /\
   step_left (set_slice_start 3 Fixture.window_20) =
     (Raise SliceOutOfBoundsError, set_slice_start 3 Fixture.window_20, [LLeftLimit])) /\
  step_right (set_slice_start 70 Fixture.window_20) =
     (Raise SliceOutOfBoundsError, set_slice_start 70 Fixture.window_20, [LRightLimit]).
Proof.
  split; [split|].
  - exact (proj1 (proj1 (step_left_step_right_restores Fixture.window_20)
                    (set_slice_start (20 - 5) Fixture.window_20) [LSteppingLeft 15]
                    (set_slice_start (15 + 5)
                       (set_slice_start (20 - 5) Fixture.window_20))
                    [LSteppingRight 20] eq_refl eq_refl)).
  - apply (proj1 (proj2 (step_left_step_right_restores
                           (set_slice_start 3 Fixture.window_20)))).
    reflexivity.
  - apply (proj1 (proj2 (proj2 (step_left_step_right_restores
                                  (set_slice_start 70 Fixture.window_20))))).
    reflexivity.
Defined.

(** ** Candidate filtering *)

Lemma py_remove_In (idx : nat) (l : list Primer) :
  is_Some (l !! idx) ->
  exists r, py_remove idx l = Some r /\ length l = S (length r).
Proof.
  intros [x Hx]. unfold py_remove. rewrite Hx. eexists. split; [reflexivity|].
  pose proof (lookup_lt_Some _ _ _ Hx). rewrite length_delete by eauto. lia.
Qed.

Lemma insert_In_at (idx : nat) (x y : Primer) (l : list Primer) :
  l !! idx = Some x -> is_Some (<[idx := y]> l !! idx).
Proof.
  intros H. exists y. apply list_lookup_insert_eq. eapply lookup_lt_Some; eauto.
Qed.

Section Filtering.

Variable align : Primer -> list Seq -> aligned.
Variable refs : list Seq.

(** The scan of one direction always runs to its end: it neither raises
    nor depends on the bound once the bound covers the list. *)
Lemma filter_from_total (n idx : nat) (d : list Primer) :
  exists d', filter_from align refs n idx d = Ok d' /\ (length d' <= length d)%nat.
Proof.
  revert idx d. induction n as [|n IH]; intros idx d; simpl; [eauto|].
  destruct (d !! idx) as [p|] eqn:E; [|eauto].
  assert (forall p', exists r, py_remove idx (<[idx := p']> d) = Some r /\
                               length d = S (length r)) as Hrm.
  { intros p'. destruct (py_remove_In idx (<[idx := p']> d)) as (r & Hr & Hl).
    - eapply insert_In_at; eauto.
    - rewrite length_insert in Hl. eauto. }
  destruct (align p refs) as [p'|p'].
  - destruct (Qgtb _ _).
    + destruct (Hrm p') as (r & -> & Hl).
      destruct (IH (S idx) r) as (d' & -> & Hd'). exists d'. split; [auto|lia].
    + destruct (IH (S idx) (<[idx := p']> d)) as (d' & -> & Hd').
      rewrite length_insert in Hd'. eauto.
  - destruct (Hrm p') as (r & -> & Hl).
    destruct (IH (S idx) r) as (d' & -> & Hd'). exists d'. split; [auto|lia].
Qed.

Lemma filter_from_enough (n k idx : nat) (d : list Primer) :
  (length d <= idx + n)%nat ->
  filter_from align refs (n + k) idx d = filter_from align refs n idx d.
Proof.
  revert idx d. induction n as [|n IH]; intros idx d Hlen.
  - simpl. destruct k; simpl; [reflexivity|].
    rewrite (lookup_ge_None_2 d idx); [reflexivity|lia].
  - simpl. destruct (d !! idx) as [p|] eqn:E; [|reflexivity].
    assert (forall p' r, py_remove idx (<[idx := p']> d) = Some r ->
                         (length r <= S idx + n)%nat) as Hrm.
    { intros p' r Hr. destruct (py_remove_In idx (<[idx := p']> d)) as (r' & Hr' & Hl).
      - eapply insert_In_at; eauto.
      - rewrite length_insert in Hl. assert (r' = r) by congruence. subst. lia. }
    destruct (align p refs) as [p'|p'].
    + destruct (Qgtb _ _).
      * destruct (py_remove idx _) as [r|] eqn:Er; [|reflexivity].
        apply IH. eauto.
      * apply IH. rewrite length_insert. lia.
    + destruct (py_remove idx _) as [r|] eqn:Er; [|reflexivity].
      apply IH. eauto.
Qed.

Lemma filter_direction_total (d : list Primer) :
  exists d', filter_direction align refs d = Ok d'.
Proof.
  destruct (filter_from_total (length d) 0 d) as (d' & H & _). eauto.
Qed.

Lemma filter_candidates_total (c : list Primer * list Primer) :
  exists lefts rights, filter_candidates align refs c = Ok (lefts, rights).
Proof.
  unfold filter_candidates.
  destruct (filter_direction_total (fst c)) as (l & ->).
  destruct (filter_direction_total (snd c)) as (r & ->).
  exists l, r. reflexivity.
Qed.

End Filtering.

(** C1.  The claim asks that after the filtering pass no candidate with a
    penalty above 5 is left, and that a side whose candidates all exceed 5
    ends up empty, so that the attempt fails with the insufficient-primers
    condition.  The pass removes elements from the list it is scanning, so
    the candidate following a removed one is never examined: of two left
    candidates with penalties 6 and 7 the second survives, the attempt
    succeeds and selects it. *)
Theorem filter_pass_keeps_candidate_after_removed_one :
  let lefts := [Fixture.primer 0 3 6; Fixture.primer 1 4 7] in
  let r := Fixture.region_at 1 (Fixture.bases "A" 100) 0 0 in
  fst (designed_candidates Fixture.design_poor_left Fixture.reverse_complement r)
    = lefts /\
  Forall (fun p => (PENALTY_THRESHOLD < penalty p)%Q) lefts /\
  filter_direction Fixture.align_all (references (scheme r)) lefts =
    Ok [Fixture.primer 1 4 7] /\
  exists r' l,
    _find_primers_for_slice Fixture.design_poor_left Fixture.reverse_complement
      Fixture.align_all Fixture.penalty_sum r = (Ok tt, r', l) /\
    top_pair r' =
      Some (mkPair (Fixture.primer 1 4 7) (Fixture.primer 27 29 1)).
Proof.
  cbv zeta. split; [reflexivity|]. split.
  - repeat constructor.
  - split; [reflexivity|]. eexists _, _. split; vm_compute; reflexivity.
Qed.

(** ** Ranking of candidate pairs *)

Section Ranking.

Context {A : Type} (key : A -> Q).

Lemma insert_by_key_length (x : A) (l : list A) :
  length (insert_by_key key x l) = S (length l).
Proof.
  induction l as [|y l IH]; simpl; [reflexivity|].
  destruct (Qle_bool _ _); simpl; congruence.
Qed.

Lemma sort_by_key_length (l : list A) :
  length (sort_by_key key l) = length l.
Proof.
  induction l as [|x l IH]; simpl; [reflexivity|].
  rewrite insert_by_key_length. congruence.
Qed.

Lemma insert_by_key_perm (x : A) (l : list A) :
  Permutation (x :: l) (insert_by_key key x l).
Proof.
  induction l as [|y l IH]; simpl; [reflexivity|].
  destruct (Qle_bool _ _); [reflexivity|].
  rewrite <- IH. apply perm_swap.
Qed.

(** The sort rearranges the pairs and loses none. *)
Lemma sort_by_key_perm (l : list A) : Permutation l (sort_by_key key l).
Proof.
  induction l as [|x l IH]; simpl; [reflexivity|].
  rewrite <- insert_by_key_perm. constructor. exact IH.
Qed.

Lemma insert_by_key_sorted (x : A) (l : list A) :
  Sorted (key_le key) l -> Sorted (key_le key) (insert_by_key key x l).
Proof.
  induction l as [|y l IH]; simpl; intros Hs.
  - repeat constructor.
  - destruct (Qle_bool (key x) (key y)) eqn:E.
    + apply Qle_bool_iff in E. constructor; [exact Hs|]. constructor. exact E.
    + assert (key_le key y x) as Hyx.
      { apply Qlt_le_weak, Qnot_le_lt. intros H.
        apply Qle_bool_iff in H. congruence. }
      inversion Hs as [|? ? Hs' Hhd]; subst. constructor; [auto|].
      destruct l as [|z l]; simpl.
      * constructor. exact Hyx.
      * destruct (Qle_bool (key x) (key z)); constructor; auto.
        inversion Hhd; subst. assumption.
Qed.

(** The result is in ascending order of the key. *)
Lemma sort_by_key_sorted (l : list A) : Sorted (key_le key) (sort_by_key key l).
Proof.
  induction l as [|x l IH]; simpl; [constructor|].
  apply insert_by_key_sorted, IH.
Qed.

(** The head of the sorted list is the first element of the input whose key
    is minimal: everything before it in the input has a strictly greater key,
    everything after it a key at least as great. *)
Lemma sort_by_key_head (l : list A) (top : A) (rest : list A) :
  sort_by_key key l = top :: rest ->
  exists before after,
    l = before ++ top :: after /\
    Forall (fun p => (key top < key p)%Q) before /\
    Forall (fun p => (key top <= key p)%Q) after.
Proof.
  revert top rest. induction l as [|x l IH]; intros top rest; simpl; [discriminate|].
  destruct (sort_by_key key l) as [|y s] eqn:Es.
  - assert (l = []) as ->.
    { apply length_zero_iff_nil. rewrite <- (sort_by_key_length l), Es. reflexivity. }
    simpl. intros [= <- <-]. exists [], []. repeat split; constructor.
  - destruct (IH y s eq_refl) as (b & a & -> & Hb & Ha). simpl.
    destruct (Qle_bool (key x) (key y)) eqn:E.
    + apply Qle_bool_iff in E. intros [= <- <-].
      exists [], (b ++ y :: a). repeat split; [constructor|].
      apply Forall_app. split; [|constructor].
      * eapply Forall_impl; [exact Hb|]. intros p Hp. simpl in Hp.
        apply Qlt_le_weak. eapply Qle_lt_trans; eauto.
      * exact E.
      * eapply Forall_impl; [exact Ha|]. intros p Hp. simpl in Hp.
        eapply Qle_trans; eauto.
    + assert (key y < key x)%Q as Hyx.
      { apply Qnot_le_lt. intros H. apply Qle_bool_iff in H. congruence. }
      intros [= <- <-]. exists (x :: b), a. repeat split; [|exact Ha].
      constructor; assumption.
Qed.

End Ranking.

Lemma cross_product_cons (l : Primer) (ls rs : list Primer) :
  cross_product (l :: ls) rs = map (mkPair l) rs ++ cross_product ls rs.
Proof. reflexivity. Qed.

Lemma cross_product_nil_inv (ls rs : list Primer) :
  cross_product ls rs = [] -> ls = [] \/ rs = [].
Proof.
  destruct ls as [|l ls]; [auto|]. destruct rs as [|r rs]; [auto|]. discriminate.
Qed.

Lemma lookup_map_pair (l : Primer) (rs : list Primer) (j : nat) :
  map (mkPair l) rs !! j = mkPair l <$> rs !! j.
Proof.
  revert j. induction rs as [|r rs IH]; intros [|j]; try reflexivity.
  cbn. apply IH.
Qed.

Lemma cross_product_length (ls rs : list Primer) :
  length (cross_product ls rs) = (length ls * length rs)%nat.
Proof.
  induction ls as [|l ls IH]; [reflexivity|].
  rewrite cross_product_cons, length_app, length_map, IH. reflexivity.
Qed.

(** The pair of the [i]-th left and the [j]-th right candidate sits at
    position [i * length rs + j] of the list of pairs. *)
Lemma cross_product_lookup (ls rs : list Primer) : forall (i j : nat) l r,
  ls !! i = Some l -> rs !! j = Some r ->
  cross_product ls rs !! (i * length rs + j)%nat = Some (mkPair l r).
Proof.
  induction ls as [|l0 ls IH]; intros i j l r Hl Hr; [destruct i; discriminate|].
  pose proof (lookup_lt_Some _ _ _ Hr) as Hj.
  rewrite cross_product_cons. destruct i as [|i].
  - injection Hl as ->. cbn [Nat.mul Nat.add].
    rewrite lookup_app_l by (rewrite length_map; exact Hj).
    rewrite lookup_map_pair, Hr. reflexivity.
  - rewrite lookup_app_r by (rewrite length_map; cbn; lia).
    rewrite length_map.
    replace (S i * length rs + j - length rs)%nat with (i * length rs + j)%nat
      by (cbn; lia).
    apply IH; assumption.
Qed.

(** Every position of the list of pairs is of that form. *)
Lemma cross_product_index (ls rs : list Primer) : forall (k : nat) p,
  cross_product ls rs !! k = Some p ->
  exists (i j : nat) l r,
    k = (i * length rs + j)%nat /\ ls !! i = Some l /\ rs !! j = Some r /\
    p = mkPair l r.
Proof.
  induction ls as [|l0 ls IH]; intros k p Hk; [discriminate|].
  rewrite cross_product_cons in Hk.
  apply lookup_app_Some in Hk as [Hk | [Hge Hk]].
  - rewrite lookup_map_pair in Hk.
    destruct (rs !! k) as [r|] eqn:Er; [|discriminate]. injection Hk as <-.
    exists 0%nat, k, l0, r. auto.
  - rewrite length_map in Hge, Hk.
    destruct (IH _ _ Hk) as (i & j & l & r & Hkk & Hl & Hr & ->).
    exists (S i), j, l, r. repeat split; auto. cbn. lia.
Qed.

(** The first minimum of a list of pairs that is the cross product, in
    terms of the positions of the two candidates. *)
Lemma first_minimum_positions (key : CandidatePrimerPair -> Q)
    (ls rs : list Primer) (top : CandidatePrimerPair)
    (before after : list CandidatePrimerPair) :
  cross_product ls rs = before ++ top :: after ->
  Forall (fun p => (key top < key p)%Q) before ->
  Forall (fun p => (key top <= key p)%Q) after ->
  exists (i j : nat) li rj,
    ls !! i = Some li /\ rs !! j = Some rj /\ top = mkPair li rj /\
    length before = (i * length rs + j)%nat /\
    forall (i' j' : nat) l' r',
      ls !! i' = Some l' -> rs !! j' = Some r' ->
      (key top <= key (mkPair l' r'))%Q /\
      ((i' < i)%nat \/ (i' = i /\ (j' < j)%nat) ->
       (key top < key (mkPair l' r'))%Q).
Proof.
  intros Hc Hb Ha.
  assert (cross_product ls rs !! length before = Some top) as Hk.
  { rewrite Hc. apply list_lookup_middle. reflexivity. }
  destruct (cross_product_index _ _ _ _ Hk) as (i & j & li & rj & Hkk & Hl & Hr & Ht).
  exists i, j, li, rj.
  split; [exact Hl|]. split; [exact Hr|]. split; [exact Ht|].
  split; [exact Hkk|].
  intros i' j' l' r2 Hl' Hr'.
  pose proof (cross_product_lookup _ _ _ _ _ _ Hl' Hr') as Hk'.
  rewrite Forall_forall in Hb. rewrite Forall_forall in Ha.
  split.
  - rewrite Hc in Hk'.
    apply lookup_app_Some in Hk' as [Hk' | [Hge Hk']].
    + apply Qlt_le_weak, Hb. apply list_elem_of_lookup. eauto.
    + destruct (i' * length rs + j' - length before)%nat as [|m] eqn:Em.
      * cbn in Hk'. assert (top = mkPair l' r2) as <- by congruence.
        apply Qle_refl.
      * apply Ha. apply list_elem_of_lookup. exists m. exact Hk'.
  - intros Hlex.
    pose proof (lookup_lt_Some _ _ _ Hr') as Hj'.
    pose proof (lookup_lt_Some _ _ _ Hr) as Hj.
    assert (i' * length rs + j' < length before)%nat as Hlt.
    { rewrite Hkk. destruct Hlex as [Hi | [-> Hjj]]; [|lia]. nia. }
    rewrite Hc, lookup_app_l in Hk' by exact Hlt.
    apply Hb. apply list_elem_of_lookup. eauto.
Qed.

Lemma debug_all_spec {S} (msgs : list LogMsg) (s : S) :
  debug_all msgs s = (Ok tt, s, msgs).
Proof.
  induction msgs as [|m msgs IH]; [reflexivity|].
  simpl. unfold_M. rewrite IH. reflexivity.
Qed.

(** ** The single-slice attempt *)

Section Attempt.

Variable design_primers : Seq -> Z -> P3Global -> bool -> list Primer.
Variable reverse_complement : Seq -> Seq.
Variable align : Primer -> list Seq -> aligned.
Variable combined_penalty : CandidatePrimerPair -> Q.

Abbreviation attempt :=
  (_find_primers_for_slice design_primers reverse_complement align combined_penalty).
Abbreviation designed := (designed_candidates design_primers reverse_complement).

Lemma _pick_pair_spec (r : Region) :
  _pick_pair combined_penalty r =
    let sorted := sort_by_key combined_penalty (candidate_pairs r) in
    match sorted with
    | [] => (Raise IndexError, set_candidate_pairs sorted r, [])
    | p :: _ =>
        (Ok tt, set_top_pair (Some p) (set_candidate_pairs sorted r),
         picked_log p sorted)
    end.
Proof.
  unfold _pick_pair, _sort_candidate_pairs, picked_log. unfold_M. simpl.
  destruct (sort_by_key combined_penalty (candidate_pairs r)) as [|p rest];
    [reflexivity|].
  rewrite !debug_all_spec. reflexivity.
Qed.

(** The attempt either fails with the insufficient-primers condition,
    leaving the region as it was, or selects the head of the sorted cross
    product of the candidates that survived the filtering pass. *)
Lemma attempt_spec (r : Region) :
  exists lefts rights,
    filter_candidates align (references (scheme r)) (designed r) = Ok (lefts, rights) /\
    ((any_empty (lefts, rights) = true /\
      attempt r = (Raise InsufficientPrimersError, r,
                   [LFinding (slice_start r) (slice_end r)])) \/
     (any_empty (lefts, rights) = false /\
      exists top rest,
        sort_by_key combined_penalty (cross_product lefts rights) = top :: rest /\
        attempt r =
          (Ok tt,
           set_top_pair (Some top) (set_candidate_pairs (top :: rest) r),
           LFinding (slice_start r) (slice_end r) :: picked_log top (top :: rest)))).
Proof.
  destruct (filter_candidates_total align (references (scheme r)) (designed r))
    as (lefts & rights & Hf).
  exists lefts, rights. split; [exact Hf|].
  unfold _find_primers_for_slice. unfold_M. rewrite Hf.
  destruct (any_empty (lefts, rights)) eqn:Ee; [left; auto|right].
  split; [reflexivity|]. rewrite _pick_pair_spec. simpl.
  destruct (sort_by_key combined_penalty (cross_product lefts rights))
    as [|top rest] eqn:Es.
  - exfalso.
    assert (cross_product lefts rights = []) as Hc.
    { apply length_zero_iff_nil.
      rewrite <- (sort_by_key_length combined_penalty), Es. reflexivity. }
    apply cross_product_nil_inv in Hc as [-> | ->]; simpl in Ee;
      [discriminate|destruct lefts; discriminate].
  - exists top, rest. split; [reflexivity|].
    destruct r; reflexivity.
Qed.

(** C7.  After a successful single-slice search, [top_pair] is the pair of
    a surviving left candidate [li], at position [i], and a surviving right
    candidate [rj], at position [j], whose combined penalty is minimal
    among the pairs of every surviving left with every surviving right
    candidate, and strictly smaller than that of every pair that comes
    earlier in left-candidate-major order (a left candidate before [li], or
    [li] with a right candidate before [rj]): the earliest of the minimal
    pairs, with no further tie-break.  The list built by the code holds
    exactly these pairs, the pair of positions [(i', j')] at index
    [i' * length rights + j']. *)
Theorem top_pair_first_minimum (r r' : Region) (l : Log) :
  attempt r = (Ok tt, r', l) ->
  exists lefts rights top before after (i j : nat) li rj,
    filter_candidates align (references (scheme r)) (designed r) = Ok (lefts, rights) /\
    top_pair r' = Some top /\
    cross_product lefts rights = before ++ top :: after /\
    Forall (fun p => (combined_penalty top < combined_penalty p)%Q) before /\
    Forall (fun p => (combined_penalty top <= combined_penalty p)%Q) after /\
    length (before ++ top :: after) = (length lefts * length rights)%nat /\
    (forall (i' j' : nat) l' r2,
       lefts !! i' = Some l' -> rights !! j' = Some r2 ->
       (before ++ top :: after) !! (i' * length rights + j')%nat
         = Some (mkPair l' r2)) /\
    lefts !! i = Some li /\ rights !! j = Some rj /\ top = mkPair li rj /\
    (forall (i' j' : nat) l' r2,
       lefts !! i' = Some l' -> rights !! j' = Some r2 ->
       (combined_penalty top <= combined_penalty (mkPair l' r2))%Q /\
       ((i' < i)%nat \/ (i' = i /\ (j' < j)%nat) ->
        (combined_penalty top < combined_penalty (mkPair l' r2))%Q)).
Proof.
  intros Hrun.
  destruct (attempt_spec r) as (lefts & rights & Hf & [[_ H] | [_ H]]).
  - rewrite H in Hrun. discriminate.
  - destruct H as (top & rest & Hs & H). rewrite H in Hrun.
    injection Hrun as <- _.
    destruct (sort_by_key_head _ _ _ _ Hs) as (b & a & Hc & Hb & Ha).
    destruct (first_minimum_positions combined_penalty _ _ _ _ _ Hc Hb Ha)
      as (i & j & li & rj & Hl & Hr & Ht & _ & Hmin).
    exists lefts, rights, top, b, a, i, j, li, rj.
    split; [exact Hf|]. split; [reflexivity|]. split; [exact Hc|].
    split; [exact Hb|]. split; [exact Ha|].
    split; [rewrite <- Hc; apply cross_product_length|].
    split; [intros i' j' l' r2 Hl' Hr'; rewrite <- Hc;
            apply cross_product_lookup; assumption|].
    auto.
Qed.

End Attempt.

(** ** The retry loop *)

Lemma picked_log_quiet (p : CandidatePrimerPair) (sorted : list CandidatePrimerPair) :
  Forall (fun m => is_finding m = false /\ is_move m = false) (picked_log p sorted).
Proof.
  unfold picked_log. constructor; [auto|].
  rewrite !Forall_app. repeat split.
  - apply Forall_forall. intros m Hm. apply list_elem_of_In, in_map_iff in Hm.
    destruct Hm as (? & <- & _). auto.
  - apply Forall_forall. intros m Hm. apply list_elem_of_In, in_map_iff in Hm.
    destruct Hm as (? & <- & _). auto.
  - generalize (take 10 sorted). intros c.
    change LCandidate with (LCandidate ∘ (fun i : nat => i)).
    generalize (fun i : nat => i). induction c as [|x c IH]; intros f; simpl;
      constructor; [auto|apply (IH (f ∘ S))].
Qed.

Section Retry.

Variable design_primers : Seq -> Z -> P3Global -> bool -> list Primer.
Variable reverse_complement : Seq -> Seq.
Variable align : Primer -> list Seq -> aligned.
Variable combined_penalty : CandidatePrimerPair -> Q.

Abbreviation attempt :=
  (_find_primers_for_slice design_primers reverse_complement align combined_penalty).
Abbreviation loop :=
  (find_primers_loop design_primers reverse_complement align combined_penalty).

Lemma loop_O (ex : bool) (r : Region) : loop O ex r = (OutOfFuel, r, []).
Proof. reflexivity. Qed.

Lemma loop_success (f : nat) (ex : bool) (r r' : Region) (l : Log) :
  attempt r = (Ok tt, r', l) -> loop (S f) ex r = (Ok tt, r', l).
Proof.
  intros H. simpl. unfold_M. rewrite H. simpl. rewrite !app_nil_r. reflexivity.
Qed.

Lemma loop_insufficient (f : nat) (ex : bool) (r : Region) (l0 : Log) :
  attempt r = (Raise InsufficientPrimersError, r, l0) ->
  loop (S f) ex r =
    let d := step_distance (scheme r) in
    if ex then
      if slice_end r + d >? right_limit r
      then (Raise NoSuitablePrimersError, r, l0 ++ [LRightLimit])
      else prepend_log (l0 ++ [LSteppingRight (slice_start r + d)])
             (loop f true (moved_to (slice_start r + d) r))
    else
      if slice_start r - d <? left_limit r
      then prepend_log (l0 ++ [LLeftLimit])
             (loop f true (moved_to (_initial_slice_start r) r))
      else prepend_log (l0 ++ [LSteppingLeft (slice_start r - d)])
             (loop f false (moved_to (slice_start r - d) r)).
Proof.
  intros H. cbn [find_primers_loop]. unfold_M. rewrite H. cbv zeta.
  destruct ex.
  - rewrite step_right_spec.
    destruct (slice_end r + step_distance (scheme r) >? right_limit r).
    + destruct r as [w ? ? ? ?]; destruct w; reflexivity.
    + cbn. unfold moved_to.
      destruct (loop f true _) as [[res r2] l2]. reflexivity.
  - rewrite step_left_spec.
    destruct (slice_start r - step_distance (scheme r) <? left_limit r).
    + cbn. unfold moved_to.
      destruct (loop f true _) as [[res r2] l2]. cbn.
      rewrite ?app_nil_r, <- ?app_assoc. reflexivity.
    + cbn. unfold moved_to.
      destruct (loop f false _) as [[res r2] l2]. cbn.
      rewrite ?app_nil_r, <- ?app_assoc. reflexivity.
Qed.

Lemma loop_cases (f : nat) (ex : bool) (r : Region) :
  let start_msg := LFinding (slice_start r) (slice_end r) in
  (exists top rest,
      loop (S f) ex r =
        (Ok tt, set_top_pair (Some top) (set_candidate_pairs (top :: rest) r),
         start_msg :: picked_log top (top :: rest))) \/
  (attempt r = (Raise InsufficientPrimersError, r, [start_msg])).
Proof.
  destruct (attempt_spec design_primers reverse_complement align combined_penalty r)
    as (lefts & rights & _ & [[_ H] | [_ (top & rest & _ & H)]]).
  - right. exact H.
  - left. exists top, rest. apply loop_success. exact H.
Qed.

Lemma attempts_app (a b : Log) : attempts (a ++ b) = (attempts a + attempts b)%nat.
Proof. induction a as [|m a IH]; simpl; [reflexivity|]. rewrite IH. lia. Qed.

Lemma attempts_picked_log (p : CandidatePrimerPair) (sorted : list CandidatePrimerPair) :
  attempts (picked_log p sorted) = 0%nat.
Proof.
  pose proof (picked_log_quiet p sorted) as H.
  induction H as [|m l [Hm _] _ IH]; [reflexivity|].
  simpl. rewrite Hm, IH. reflexivity.
Qed.

Lemma same_frame_refl (r : Region) : same_frame r r.
Proof. repeat split. Qed.

(** Once the left direction is exhausted the loop ends within the room
    that is left on the right. *)
Lemma right_phase (k : nat) : forall (r : Region) (fuel : nat),
  0 < step_distance (scheme r) ->
  (right_room r (slice_start r) < k)%nat ->
  (k <= fuel)%nat ->
  exists res r' l,
    loop fuel true r = (res, r', l) /\ terminal res r' /\ same_frame r r' /\
    (attempts l <= k)%nat.
Proof.
  induction k as [|k IH]; intros r fuel Hd Hroom Hfuel; [lia|].
  destruct fuel as [|f]; [lia|].
  destruct (loop_cases f true r) as [(top & rest & H) | H].
  - do 3 eexists. split; [exact H|]. split; [left; cbn; eauto|].
    split; [repeat split|].
    cbn [attempts is_finding]. rewrite attempts_picked_log. lia.
  - rewrite (loop_insufficient _ _ _ _ H). cbv zeta.
    destruct (slice_end r + step_distance (scheme r) >? right_limit r) eqn:E.
    + do 3 eexists. split; [reflexivity|]. split; [right; reflexivity|].
      split; [apply same_frame_refl|]. cbn. lia.
    + destruct (IH (moved_to (slice_start r + step_distance (scheme r)) r) f)
        as (res & r' & l & Hrun & Hterm & Hframe & Hatt).
      * exact Hd.
      * unfold right_room, slice_end in *. cbn. lia.
      * lia.
      * rewrite Hrun. do 3 eexists. split; [reflexivity|].
        split; [exact Hterm|]. split; [exact Hframe|].
        rewrite attempts_app. cbn. cbn in Hatt. lia.
Qed.

(** Before that, it ends within the room on the left plus the room on the
    right of the initial slice. *)
Lemma left_phase (k : nat) : forall (r : Region) (fuel : nat),
  0 < step_distance (scheme r) ->
  (Z.to_nat (slice_start r - left_limit r) < k)%nat ->
  (k + (right_room r (_initial_slice_start r) + 1) <= fuel)%nat ->
  exists res r' l,
    loop fuel false r = (res, r', l) /\ terminal res r' /\ same_frame r r' /\
    (attempts l <= k + (right_room r (_initial_slice_start r) + 1))%nat.
Proof.
  induction k as [|k IH]; intros r fuel Hd Hroom Hfuel; [lia|].
  destruct fuel as [|f]; [lia|].
  destruct (loop_cases f false r) as [(top & rest & H) | H].
  - do 3 eexists. split; [exact H|]. split; [left; cbn; eauto|].
    split; [repeat split|].
    cbn [attempts is_finding]. rewrite attempts_picked_log. lia.
  - rewrite (loop_insufficient _ _ _ _ H). cbv zeta.
    destruct (slice_start r - step_distance (scheme r) <? left_limit r) eqn:E.
    + destruct (right_phase (right_room r (_initial_slice_start r) + 1)
                  (moved_to (_initial_slice_start r) r) f)
        as (res & r' & l & Hrun & Hterm & Hframe & Hatt).
      * exact Hd.
      * unfold right_room. cbn. lia.
      * lia.
      * rewrite Hrun. do 3 eexists. split; [reflexivity|].
        split; [exact Hterm|]. split; [exact Hframe|].
        rewrite attempts_app. cbn. lia.
    + destruct (IH (moved_to (slice_start r - step_distance (scheme r)) r) f)
        as (res & r' & l & Hrun & Hterm & Hframe & Hatt).
      * exact Hd.
      * cbn. lia.
      * unfold right_room in *. cbn. lia.
      * rewrite Hrun. do 3 eexists. split; [reflexivity|].
        split; [exact Hterm|]. split; [exact Hframe|].
        rewrite attempts_app. unfold right_room in *. cbn. cbn in Hatt. lia.
Qed.

(** C4.  With a positive step distance [find_primers] terminates: once the
    fuel reaches [attempts_bound r] the run ends, in success with
    [top_pair] set or in the terminal NoSuitablePrimers error, after at most
    [attempts_bound r] single-slice attempts.  Every successful step stays
    within its limit and moves strictly: left steps decrease [slice_start]
    and right steps increase it. *)
Theorem find_primers_terminates (r : Region) :
  0 < step_distance (scheme r) ->
  (forall fuel, (attempts_bound r <= fuel)%nat ->
     exists res r' l,
       find_primers design_primers reverse_complement align combined_penalty
         fuel r = (res, r', l) /\
       terminal res r' /\
       (attempts l <= attempts_bound r)%nat) /\
  (forall w w1 l, scheme w = scheme r ->
     step_left w = (Ok tt, w1, l) ->
     left_limit w <= slice_start w1 < slice_start w) /\
  (forall w w1 l, scheme w = scheme r ->
     step_right w = (Ok tt, w1, l) ->
     slice_start w < slice_start w1 /\ slice_end w1 <= right_limit w).
Proof.
  intros Hd. split; [|split].
  - intros fuel Hfuel. unfold attempts_bound in *.
    destruct (left_phase (Z.to_nat (slice_start r - left_limit r) + 1) r fuel)
      as (res & r' & l & Hrun & Hterm & _ & Hatt); [exact Hd|lia|lia|].
    exists res, r', l. auto.
  - intros w w1 l Hs. rewrite step_left_spec.
    destruct (Z.ltb_spec (slice_start w - step_distance (scheme w)) (left_limit w));
      [discriminate|].
    intros [= <- _]. rewrite <- Hs in Hd. cbn. lia.
  - intros w w1 l Hs. rewrite step_right_spec.
    destruct (slice_end w + step_distance (scheme w) >? right_limit w) eqn:E;
      [discriminate|].
    intros [= <- _]. rewrite <- Hs in Hd. unfold slice_end in *. cbn. lia.
Qed.

(** Whatever the step distance, a run that ends does so in success or in
    the terminal error, and assigns nothing but [slice_start],
    [candidate_pairs] and [top_pair]. *)
Lemma loop_outcome (fuel : nat) : forall (ex : bool) (r r' : Region) res (l : Log),
  loop fuel ex r = (res, r', l) ->
  (terminal res r' \/ res = OutOfFuel) /\ same_frame r r'.
Proof.
  induction fuel as [|f IH]; intros ex r r' res l.
  - rewrite loop_O. intros [= <- <- _]. split; [auto|repeat split].
  - destruct (loop_cases f ex r) as [(top & rest & H) | H].
    + rewrite H. intros [= <- <- _]. split; [|repeat split].
      left. left. cbn. eauto.
    + rewrite (loop_insufficient _ _ _ _ H). cbv zeta.
      repeat match goal with
             | |- context [if ?c then _ else _] => destruct c
             end;
        try (intros [= <- <- _]; split; [left; right; reflexivity|repeat split]);
        unfold prepend_log;
        match goal with
        | |- context [loop f ?e ?x] =>
            destruct (loop f e x) as [[res2 r2] l2] eqn:E
        end;
        intros [= <- <- _]; exact (IH _ _ _ _ _ E).
Qed.

Lemma loop_log_head (f : nat) (ex : bool) (r r' : Region) res (l : Log) :
  loop (S f) ex r = (res, r', l) ->
  exists l', l = LFinding (slice_start r) (slice_end r) :: l'.
Proof.
  destruct (loop_cases f ex r) as [(top & rest & H) | H].
  - rewrite H. intros [= _ _ <-]. eauto.
  - rewrite (loop_insufficient _ _ _ _ H). cbv zeta.
    repeat match goal with
           | |- context [if ?c then _ else _] => destruct c
           end;
      try (intros [= _ _ <-]; cbn; eauto; fail);
      unfold prepend_log;
      match goal with
      | |- context [loop f ?e ?x] => destruct (loop f e x) as [[res2 r2] l2]
      end;
      intros [= _ _ <-]; cbn; eauto.
Qed.

Lemma left_phase_log (fuel : nat) : forall (r r' : Region) res (l : Log),
  loop fuel false r = (res, r', l) ->
  In LLeftLimit l ->
  exists mid after,
    l = LFinding (slice_start r) (slice_end r) :: mid ++ LLeftLimit :: after /\
    Forall (fun m => is_right_move m = false /\ m <> LLeftLimit) mid /\
    ((after = [] /\ res = OutOfFuel) \/
     exists after',
       after = LFinding (_initial_slice_start r)
                 (_initial_slice_start r + amplicon_size_max (scheme r)) :: after').
Proof.
  induction fuel as [|f IH]; intros r r' res l.
  - rewrite loop_O. intros [= _ _ <-] [].
  - destruct (loop_cases f false r) as [(top & rest & H) | H].
    + rewrite H. intros [= _ _ <-] [Hin|Hin]; [discriminate|].
      exfalso. pose proof (picked_log_quiet top (top :: rest)) as Hq.
      rewrite Forall_forall in Hq. apply list_elem_of_In, Hq in Hin.
      destruct Hin as [_ Hin]. discriminate.
    + rewrite (loop_insufficient _ _ _ _ H). cbv zeta.
      destruct (slice_start r - step_distance (scheme r) <? left_limit r).
      * destruct (loop f true _) as [[res2 r2] l2] eqn:E.
        intros [= <- _ <-] _. exists [], l2. split; [reflexivity|].
        split; [constructor|].
        destruct f as [|f].
        -- rewrite loop_O in E. injection E as <- _ <-. left. auto.
        -- right. apply loop_log_head in E as (l' & ->). exists l'. reflexivity.
      * destruct (loop f false _) as [[res2 r2] l2] eqn:E.
        intros [= <- _ <-] Hin.
        destruct Hin as [Hin|[Hin|Hin]]; [discriminate|discriminate|].
        destruct (IH _ _ _ _ E Hin) as (mid & after & -> & Hmid & Hafter).
        eexists (LSteppingLeft _ :: LFinding _ _ :: mid), after.
        split; [reflexivity|]. split; [|exact Hafter].
        repeat constructor; try discriminate. exact Hmid.
Qed.

(** C10.  When the left direction becomes exhausted during a run of
    [find_primers], the log of the run reads: the search at the position of
    entry, then searches and left steps only, then the left limit being
    hit, and immediately after it (nothing is logged by the reset, and no
    right step has been taken yet) a search at the construction-time
    position.  A run entered at the construction-time position, as
    [design_scheme] does, therefore searches that position twice.  The
    search after the reset is missing only from a run cut short by the
    fuel at that very point. *)
Theorem left_exhaustion_searches_initial_slice_again
    (fuel : nat) (r r' : Region) (res : result unit) (l : Log) :
  find_primers design_primers reverse_complement align combined_penalty
    fuel r = (res, r', l) ->
  In LLeftLimit l ->
  let initial :=
    LFinding (_initial_slice_start r)
      (_initial_slice_start r + amplicon_size_max (scheme r)) in
  exists mid after,
    l = LFinding (slice_start r) (slice_end r) :: mid ++ LLeftLimit :: after /\
    Forall (fun m => is_right_move m = false /\ m <> LLeftLimit) mid /\
    ((after = [] /\ res = OutOfFuel) \/ exists after', after = initial :: after') /\
    (slice_start r = _initial_slice_start r -> res <> OutOfFuel ->
     exists after', l = initial :: mid ++ LLeftLimit :: initial :: after').
Proof.
  intros Hrun Hin initial.
  destruct (left_phase_log _ _ _ _ _ Hrun Hin) as (mid & after & Hl & Hmid & Hafter).
  exists mid, after. repeat split; [exact Hl|exact Hmid|exact Hafter|].
  intros Hs Hres. destruct Hafter as [[_ ?] | (after' & ->)]; [contradiction|].
  exists after'. rewrite Hl. unfold initial, slice_end. rewrite Hs. reflexivity.
Qed.

End Retry.

(** ** The orchestrator *)

Lemma py_from_end_2 {A} (l : list A) (x y : A) :
  py_from_end (l ++ [x; y]) 2 = Some x.
Proof. unfold py_from_end. rewrite rev_app_distr. reflexivity. Qed.

Lemma snoc_cases {A} (l : list A) : l = [] \/ exists l0 x, l = l0 ++ [x].
Proof.
  destruct l as [|a l] using rev_ind; [auto|]. right. eauto.
Qed.

Lemma region_args_first (self : MultiplexScheme) (st : Loop) :
  regions st = [] -> cur_region_num st = 0 ->
  region_args self st = Ok (0, 0, is_last st).
Proof.
  intros Hr Hc. unfold region_args. rewrite Hr, Hc. reflexivity.
Qed.

Lemma region_args_next (self : MultiplexScheme) (st : Loop)
    (rs0 : list Region) (r1 : Region) (p1 : CandidatePrimerPair)
    (pip : option CandidatePrimerPair) :
  regions st = rs0 ++ [r1] ->
  cur_region_num st = Z.of_nat (length (regions st)) ->
  top_pair r1 = Some p1 ->
  (rs0 = [] /\ pip = None) \/
  (exists rs00 r0 p0, rs0 = rs00 ++ [r0] /\ top_pair r0 = Some p0 /\ pip = Some p0) ->
  region_args self st =
    Ok (left_limit_after p1 pip,
        slice_start_after self p1 (left_limit_after p1 pip),
        few_bases_left self p1).
Proof.
  intros Hr Hc Hp1 Hpip. unfold region_args. rewrite Hc, Hr, last_snoc, Hp1.
  unfold next_left_limit, next_slice_start, slice_start_after,
    target_slice_start, few_bases_left, left_limit_after, amplicon_max_variation.
  destruct Hpip as [[-> ->] | (rs00 & r0 & p0 & -> & Hp0 & ->)].
  - cbn. destruct (_ <=? _); reflexivity.
  - rewrite <- app_assoc. cbn [app]. rewrite py_from_end_2, Hp0.
    rewrite !length_app. cbn [length].
    destruct (Z.gtb_spec (Z.of_nat (length rs00 + 2) + 1) 2) as [_|?]; [|lia].
    destruct (Z.eqb_spec (Z.of_nat (length rs00 + 2) + 1) 1) as [?|_]; [lia|].
    destruct (Z.eqb_spec (Z.of_nat (length rs00 + 2) + 1) 2) as [?|_]; [lia|].
    cbn. destruct (start (left p1) >? start (right p0));
      cbn; destruct (_ <=? _); reflexivity.
Qed.

Lemma Region_init_cases (n : Z) (s : MultiplexScheme) (ll ss : Z) (rl : option Z) :
  (exists l, Region_init n s ll ss rl = (Raise SliceOutOfBoundsError, l)) \/
  (exists region l,
      Region_init n s ll ss rl = (Ok region, l) /\
      region_num region = n /\ scheme region = s /\ left_limit region = ll /\
      slice_start region = ss /\ _initial_slice_start region = ss).
Proof.
  unfold Region_init, Window_init. destruct (_ || _); [left; eauto|].
  right. do 2 eexists. split; [reflexivity|]. repeat split.
Qed.

Lemma well_formed_initial : well_formed initial_loop.
Proof.
  split; [reflexivity|]. split; intros i; intros; destruct i; discriminate.
Qed.

Lemma region_args_ok (self : MultiplexScheme) (st : Loop) :
  well_formed st -> exists ll ss il, region_args self st = Ok (ll, ss, il).
Proof.
  intros (Hc & Hp & _).
  destruct (snoc_cases (regions st)) as [Hr | (rs0 & r1 & Hr)].
  - rewrite Hr in Hc. do 3 eexists. apply region_args_first; assumption.
  - destruct (Hp (length rs0) r1) as (_ & p1 & Hp1).
    { rewrite Hr. apply list_lookup_middle. reflexivity. }
    destruct (snoc_cases rs0) as [-> | (rs00 & r0 & ->)].
    + do 3 eexists. eapply (region_args_next _ _ [] r1 p1 None); eauto.
    + destruct (Hp (length rs00) r0) as (_ & p0 & Hp0).
      { rewrite Hr, <- app_assoc. apply list_lookup_middle. reflexivity. }
      do 3 eexists.
      eapply (region_args_next _ _ (rs00 ++ [r0]) r1 p1 (Some p0)); eauto.
      right. eauto 6.
Qed.

Section Orchestrator.

Variable design_primers : Seq -> Z -> P3Global -> bool -> list Primer.
Variable reverse_complement : Seq -> Seq.
Variable align : Primer -> list Seq -> aligned.
Variable combined_penalty : CandidatePrimerPair -> Q.
Variable self : MultiplexScheme.
Variable inner : nat.

Abbreviation find :=
  (find_primers design_primers reverse_complement align combined_penalty inner).
Abbreviation pass_of :=
  (design_pass design_primers reverse_complement align combined_penalty self inner).
Abbreviation fails_at :=
  (no_suitable_primers_at design_primers reverse_complement align combined_penalty
     self inner).

(** The three ways [find_primers] can end. *)
Lemma find_cases (region : Region) :
  exists res region' l,
    find region = (res, region', l) /\ same_frame region region' /\
    ((res = Ok tt /\ exists p, top_pair region' = Some p) \/
     res = Raise NoSuitablePrimersError \/ res = OutOfFuel).
Proof.
  destruct (find region) as [[res region'] l] eqn:E.
  exists res, region', l. split; [reflexivity|].
  unfold find_primers in E.
  destruct (loop_outcome _ _ _ _ _ _ _ _ _ _ E) as [[[H | H] | H] Hf]; auto.
Qed.

(** A pass that appends a region. *)
Lemma design_pass_appended (st st' : Loop) (calls : list (Z * Z)) (l : Log) :
  pass_of st = (Appended st' calls, l) ->
  exists ll ss il region l0 region' l1 tp,
    region_args self st = Ok (ll, ss, il) /\
    Region_init (cur_region_num st + 1) self ll ss None = (Ok region, l0) /\
    find region = (Ok tt, region', l1) /\
    same_frame region region' /\
    top_pair region' = Some tp /\
    st' = {| regions := regions st ++ [region'];
             cur_region_num := cur_region_num st + 1;
             is_last := il |} /\
    calls = (if progress_func self
             then [(start (right tp), ref_len self)] else []).
Proof.
  unfold design_pass.
  destruct (region_args self st) as [[[ll ss] il]|e|]; [|discriminate..].
  destruct (Region_init _ _ _ _ _) as [[region|e|] l0] eqn:Ei; [|discriminate..].
  destruct (find_cases region) as (res & region' & l1 & Hrun & Hf & Hres).
  rewrite Hrun.
  destruct Hres as [[-> (tp & Htp)] | [-> | ->]].
  - rewrite Htp. intros H. exists ll, ss, il, region, l0, region', l1, tp.
    destruct (progress_func self); injection H as <- <- _; auto 10.
  - destruct (_ =? 1); discriminate.
  - discriminate.
Qed.

(** A pass that leaves the loop through [break]. *)
Lemma design_pass_broke (st : Loop) (l : Log) :
  pass_of st = (Broke, l) -> fails_at st /\ cur_region_num st + 1 <> 1.
Proof.
  unfold design_pass, no_suitable_primers_at.
  destruct (region_args self st) as [[[ll ss] il]|e|]; [|discriminate..].
  destruct (Region_init _ _ _ _ _) as [[region|e|] l0] eqn:Ei; [|discriminate..].
  destruct (find_cases region) as (res & region' & l1 & Hrun & Hf & Hres).
  rewrite Hrun.
  destruct Hres as [[-> (tp & Htp)] | [-> | ->]].
  - rewrite Htp. destruct (progress_func self); discriminate.
  - destruct (Z.eqb_spec (cur_region_num st + 1) 1); [discriminate|].
    intros _. split; [|assumption]. eauto 12.
  - discriminate.
Qed.

(** A pass that raises. *)
Lemma design_pass_raised (st : Loop) (e : exn) (l : Log) :
  well_formed st ->
  pass_of st = (Raised e, l) ->
  (e = NoSuitablePrimersError /\ fails_at st /\ cur_region_num st + 1 = 1) \/
  (e = SliceOutOfBoundsError /\
   exists ll ss il,
     region_args self st = Ok (ll, ss, il) /\
     Region_init (cur_region_num st + 1) self ll ss None =
       (Raise SliceOutOfBoundsError, l)).
Proof.
  intros Hwf. unfold design_pass, no_suitable_primers_at.
  destruct (region_args_ok self st Hwf) as (ll & ss & il & ->).
  destruct (Region_init_cases (cur_region_num st + 1) self ll ss None)
    as [(l0 & Hi) | (region & l0 & Hi & _)]; rewrite Hi.
  - intros [= <- <-]. right. eauto 8.
  - destruct (find_cases region) as (res & region' & l1 & Hrun & Hf & Hres).
    rewrite Hrun.
    destruct Hres as [[-> (tp & Htp)] | [-> | ->]].
    + rewrite Htp. destruct (progress_func self); discriminate.
    + destruct (Z.eqb_spec (cur_region_num st + 1) 1); [|discriminate].
      intros [= <- _]. left. split; [reflexivity|]. split; [|assumption].
      eauto 12.
    + discriminate.
Qed.

(** What a pass does when [find_primers] ends in the terminal error. *)
Lemma design_pass_no_suitable (st : Loop) :
  fails_at st ->
  exists l,
    pass_of st =
      (if cur_region_num st + 1 =? 1 then Raised NoSuitablePrimersError else Broke, l).
Proof.
  intros (ll & ss & il & region & l0 & region' & l1 & Ha & Hi & Hrun).
  unfold design_pass. rewrite Ha, Hi, Hrun.
  destruct (_ =? 1); eauto.
Qed.

Lemma no_suitable_primers_atb_true (st : Loop) :
  no_suitable_primers_atb design_primers reverse_complement align combined_penalty
    self inner st = true ->
  fails_at st.
Proof.
  unfold no_suitable_primers_atb, no_suitable_primers_at.
  destruct (region_args self st) as [[[ll ss] il]|e|]; [|discriminate..].
  destruct (Region_init _ _ _ _ _) as [[region|e|] l0] eqn:Ei; [|discriminate..].
  destruct (find region) as [[[[]|e|] region'] l1] eqn:Ef; try discriminate.
  destruct e; try discriminate. intros _. eauto 12.
Qed.

(** The passes keep the state well formed. *)
Lemma design_pass_well_formed (st st' : Loop) (calls : list (Z * Z)) (l : Log) :
  well_formed st ->
  pass_of st = (Appended st' calls, l) ->
  well_formed st'.
Proof.
  intros Hwf Hpass.
  destruct (design_pass_appended _ _ _ _ Hpass)
    as (ll & ss & il & region & l0 & region' & l1 & tp &
        Ha & Hi & Hrun & Hf & Htp & -> & _).
  destruct (Region_init_cases (cur_region_num st + 1) self ll ss None)
    as [(l0' & Hi') | (region0 & l0' & Hi' & Hn & _ & Hll & _)];
    rewrite Hi in Hi'; [discriminate|].
  injection Hi' as <- <-.
  destruct Hf as (_ & Hfl & _ & _ & Hfn & _).
  destruct Hwf as (Hc & Hp & Hl).
  split; [|split]; cbn [regions cur_region_num].
  - rewrite length_app. cbn. lia.
  - intros i r Hi'. apply lookup_app_Some in Hi' as [Hi' | [Hlen Hi']].
    + apply Hp. exact Hi'.
    + apply list_lookup_singleton_Some in Hi' as [Hi' <-].
      split; [|eauto]. rewrite Hfn, Hn, Hc. lia.
  - intros i r0 r1 r2 p0 p1 H0 H1 H2 Hp0 Hp1.
    apply lookup_app_Some in H2 as [H2 | [Hlen H2]].
    + pose proof (lookup_lt_Some _ _ _ H2) as Hlt.
      rewrite lookup_app_l in H0 by lia. rewrite lookup_app_l in H1 by lia.
      exact (Hl i r0 r1 r2 p0 p1 H0 H1 H2 Hp0 Hp1).
    + apply list_lookup_singleton_Some in H2 as [H2 <-].
      assert (S (S i) = length (regions st)) as Hlen' by lia.
      rewrite lookup_app_l in H0 by lia. rewrite lookup_app_l in H1 by lia.
      rewrite Hfl, Hll.
      destruct (snoc_cases (regions st)) as [Hr | (rs0 & r1' & Hr)];
        [rewrite Hr in Hlen'; discriminate|].
      destruct (snoc_cases rs0) as [-> | (rs00 & r0' & ->)];
        [rewrite Hr in Hlen'; discriminate|].
      rewrite Hr, !length_app in Hlen'. cbn in Hlen'.
      assert (i = length rs00) as -> by lia.
      rewrite Hr, <- app_assoc in H0. cbn [app] in H0.
      rewrite list_lookup_middle in H0 by reflexivity.
      rewrite Hr in H1. rewrite lookup_app_r in H1 by (rewrite length_app; cbn; lia).
      rewrite length_app in H1. cbn in H1.
      replace (S (length rs00) - (length rs00 + 1))%nat with 0%nat in H1 by lia.
      injection H0 as <-. injection H1 as <-.
      pose proof (region_args_next self st (rs00 ++ [r0']) r1' p1 (Some p0) Hr Hc Hp1)
        as Hargs.
      rewrite Ha in Hargs. lapply Hargs; [|right; eauto 6].
      intros [= -> _ _]. reflexivity.
Qed.

End Orchestrator.

(** ** Whole runs of [design_scheme] *)

Section Runs.

Variable design_primers : Seq -> Z -> P3Global -> bool -> list Primer.
Variable reverse_complement : Seq -> Seq.
Variable align : Primer -> list Seq -> aligned.
Variable combined_penalty : CandidatePrimerPair -> Q.
Variable self : MultiplexScheme.
Variable inner : nat.

Abbreviation pass_of :=
  (design_pass design_primers reverse_complement align combined_penalty self inner).
Abbreviation fails_at :=
  (no_suitable_primers_at design_primers reverse_complement align combined_penalty
     self inner).
Abbreviation after_passes :=
  (passes design_primers reverse_complement align combined_penalty self inner).
Abbreviation loop_from :=
  (design_loop design_primers reverse_complement align combined_penalty self inner).

Lemma passes_S (k : nat) (st' : Loop) :
  after_passes (S k) = Some st' ->
  exists st calls l,
    after_passes k = Some st /\ is_last st = false /\
    pass_of st = (Appended st' calls, l).
Proof.
  cbn [passes]. destruct (after_passes k) as [st|]; [|discriminate].
  destruct (is_last st) eqn:El; [discriminate|].
  destruct (pass_of st) as [[st2 calls| |e|] l] eqn:Ep; try discriminate.
  intros [= <-]. eauto 6.
Qed.

Lemma passes_well_formed (k : nat) : forall st,
  after_passes k = Some st ->
  well_formed st /\ cur_region_num st = Z.of_nat k.
Proof.
  induction k as [|k IH]; intros st'.
  - intros [= <-]. split; [apply well_formed_initial|reflexivity].
  - intros H. apply passes_S in H as (st & calls & l & Hk & _ & Hp).
    destruct (IH st Hk) as [Hwf Hc]. split.
    + eapply design_pass_well_formed; eauto.
    + apply design_pass_appended in Hp
        as (? & ? & ? & ? & ? & ? & ? & ? & _ & _ & _ & _ & _ & -> & _).
      cbn. lia.
Qed.

Lemma design_loop_S (f : nat) (st : Loop) :
  is_last st = false ->
  loop_from (S f) st =
    match pass_of st with
    | (Appended st' calls, l) => prepend_run calls l (loop_from f st')
    | (Broke, l) => (Ok (regions st), [], l)
    | (Raised e, l) => (Raise e, [], l)
    | (Diverged, l) => (OutOfFuel, [], l)
    end.
Proof.
  intros El. cbn [design_loop]. rewrite El.
  destruct (pass_of st) as [[st2 calls| |e|] l]; reflexivity.
Qed.

(** The loop, run with fuel for [k] more passes than the state after [k]
    passes needs, continues from that state. *)
Lemma design_loop_after_passes (k : nat) : forall st f,
  after_passes k = Some st ->
  exists calls l,
    loop_from (k + f) initial_loop = prepend_run calls l (loop_from f st).
Proof.
  induction k as [|k IH]; intros st' f.
  - intros [= <-]. exists [], []. cbn.
    destruct (loop_from f initial_loop) as [[res c] l]. reflexivity.
  - intros H. apply passes_S in H as (st & calls & l & Hk & El & Hp).
    destruct (IH st (S f) Hk) as (calls0 & l0 & Hrun).
    replace (S k + f)%nat with (k + S f)%nat by lia.
    rewrite Hrun, (design_loop_S _ _ El), Hp.
    exists (calls0 ++ calls), (l0 ++ l).
    destruct (loop_from f st') as [[res c] l']. cbn.
    rewrite <- !app_assoc. reflexivity.
Qed.

(** How the loop can end, from a state that some number of passes reached:
    with the regions of a state reached by further passes, or with the
    exception of a pass from such a state. *)
Lemma design_loop_result (f : nat) : forall k st res c l,
  after_passes k = Some st ->
  loop_from f st = (res, c, l) ->
  match res with
  | Ok rs => exists k' st', after_passes k' = Some st' /\ rs = regions st'
  | Raise e =>
      exists k' st' l',
        after_passes k' = Some st' /\ is_last st' = false /\
        pass_of st' = (Raised e, l')
  | OutOfFuel => True
  end.
Proof.
  induction f as [|f IH]; intros k st res c l Hk.
  - cbn. destruct (is_last st); intros [= <- _ _]; eauto.
  - destruct (is_last st) eqn:El.
    + cbn. rewrite El. intros [= <- _ _]. eauto.
    + rewrite (design_loop_S _ _ El).
      destruct (pass_of st) as [[st2 calls| |e|] l2] eqn:Ep.
      * destruct (loop_from f st2) as [[res2 c2] l3] eqn:E2.
        intros [= <- _ _]. apply (IH (S k) st2 res2 c2 l3); [|exact E2].
        cbn [passes]. rewrite Hk, El, Ep. reflexivity.
      * intros [= <- _ _]. eauto.
      * intros [= <- _ _]. eauto 6.
      * intros [= <- _ _]. exact I.
Qed.

End Runs.

Section Scheme.

Variable design_primers : Seq -> Z -> P3Global -> bool -> list Primer.
Variable reverse_complement : Seq -> Seq.
Variable align : Primer -> list Seq -> aligned.
Variable combined_penalty : CandidatePrimerPair -> Q.

Abbreviation run_of :=
  (design_scheme design_primers reverse_complement align combined_penalty).
Abbreviation pass_of :=
  (design_pass design_primers reverse_complement align combined_penalty).
Abbreviation fails_at :=
  (no_suitable_primers_at design_primers reverse_complement align combined_penalty).
Abbreviation after_passes :=
  (passes design_primers reverse_complement align combined_penalty).
Abbreviation loop_from :=
  (design_loop design_primers reverse_complement align combined_penalty).
Abbreviation find :=
  (find_primers design_primers reverse_complement align combined_penalty).

(** A run that returns leaves in [self.regions] the regions of a state
    that the passes reached. *)
Lemma design_scheme_returns (self : MultiplexScheme) (fuel : nat) :
  outcome (run_of self fuel) = Ok tt ->
  exists k st,
    after_passes self fuel k = Some st /\
    scheme_regions (run_of self fuel) = regions st.
Proof.
  unfold design_scheme.
  destruct (loop_from self fuel fuel initial_loop) as [[res c] l] eqn:E.
  pose proof (design_loop_result _ _ _ _ self fuel fuel 0 initial_loop res c l
                eq_refl E) as H.
  destruct res as [rs|e|]; cbn; [|discriminate..].
  intros _. destruct H as (k & st & Hk & ->). eauto.
Qed.

(** A run that raises does so in a pass from a state that the passes
    reached. *)
Lemma design_scheme_raises (self : MultiplexScheme) (fuel : nat) (e : exn) :
  outcome (run_of self fuel) = Raise e ->
  scheme_regions (run_of self fuel) = [] /\
  exists k st l,
    after_passes self fuel k = Some st /\ is_last st = false /\
    pass_of self fuel st = (Raised e, l).
Proof.
  unfold design_scheme.
  destruct (loop_from self fuel fuel initial_loop) as [[res c] l] eqn:E.
  pose proof (design_loop_result _ _ _ _ self fuel fuel 0 initial_loop res c l
                eq_refl E) as H.
  destruct res as [rs|e'|]; cbn; [discriminate| |discriminate].
  intros [= ->]. split; [reflexivity|exact H].
Qed.

(** The errors that leave [design_scheme] and where they come from. *)
Lemma design_scheme_raises_cases (self : MultiplexScheme) (fuel : nat) (e : exn) :
  outcome (run_of self fuel) = Raise e ->
  (e = NoSuitablePrimersError /\ fails_at self fuel initial_loop) \/
  (e = SliceOutOfBoundsError /\
   exists k st ll ss il l,
     after_passes self fuel k = Some st /\
     region_args self st = Ok (ll, ss, il) /\
     Region_init (cur_region_num st + 1) self ll ss None =
       (Raise SliceOutOfBoundsError, l)).
Proof.
  intros H. apply design_scheme_raises in H as (_ & k & st & l & Hk & _ & Hp).
  destruct (passes_well_formed _ _ _ _ _ _ _ _ Hk) as [Hwf Hc].
  destruct (design_pass_raised _ _ _ _ _ _ _ _ _ Hwf Hp)
    as [(-> & Hf & H1) | (-> & ll & ss & il & Ha & Hi)].
  - left. split; [reflexivity|].
    assert (k = 0%nat) as -> by lia. injection Hk as <-. exact Hf.
  - right. split; [reflexivity|]. eauto 10.
Qed.

(** C2, as amended.  Of the bounds errors, those of [step_left] and
    [step_right] are caught inside [find_primers] and converted: when a
    single-slice attempt lacks candidates and [step_left] raises the bounds
    error, the slice is reset to its construction-time start and the loop
    goes on in the right-stepping phase; when [step_right] raises it, the
    loop ends with NoSuitablePrimers.  So [find_primers] lets nothing but
    the terminal NoSuitablePrimers error out.  The bounds error of the
    window construction is not caught: the constructor of the region is
    called by [design_scheme] outside of any handler, and whenever the
    construction of the next region raises it, for region 1 or a later one,
    the error leaves [design_scheme]. *)
Theorem errors_leaving_design_scheme (self : MultiplexScheme) (fuel : nat) :
  (forall region e region' l,
      find fuel region = (Raise e, region', l) -> e = NoSuitablePrimersError) /\
  (forall (f : nat) (region : Region) (l0 : Log),
      _find_primers_for_slice design_primers reverse_complement align
        combined_penalty region = (Raise InsufficientPrimersError, region, l0) ->
      (forall w lg,
          step_left (window region) = (Raise SliceOutOfBoundsError, w, lg) ->
          find_primers_loop design_primers reverse_complement align
            combined_penalty (S f) false region =
          prepend_log (l0 ++ lg)
            (find_primers_loop design_primers reverse_complement align
               combined_penalty f true
               (moved_to (_initial_slice_start region) region))) /\
      (forall w lg,
          step_right (window region) = (Raise SliceOutOfBoundsError, w, lg) ->
          find_primers_loop design_primers reverse_complement align
            combined_penalty (S f) true region =
          (Raise NoSuitablePrimersError, region, l0 ++ lg))) /\
  (forall (k : nat) st ll ss il l,
      after_passes self fuel k = Some st ->
      is_last st = false ->
      (k < fuel)%nat ->
      region_args self st = Ok (ll, ss, il) ->
      Region_init (cur_region_num st + 1) self ll ss None =
        (Raise SliceOutOfBoundsError, l) ->
      outcome (run_of self fuel) = Raise SliceOutOfBoundsError).
Proof.
  split; [|split].
  - intros region e region' l H. unfold find_primers in H.
    destruct (loop_outcome _ _ _ _ _ _ _ _ _ _ H) as [[[[? _] | ?] | ?] _];
      congruence.
  - intros f region l0 Ha.
    pose proof (loop_insufficient design_primers reverse_complement align
                  combined_penalty f false region l0 Ha) as Hl.
    pose proof (loop_insufficient design_primers reverse_complement align
                  combined_penalty f true region l0 Ha) as Hr.
    cbv zeta in Hl, Hr. split.
    + intros w lg Hs. rewrite step_left_spec in Hs. rewrite Hl.
      destruct (slice_start region - step_distance (scheme region)
                <? left_limit region); [|discriminate].
      injection Hs as _ <-. reflexivity.
    + intros w lg Hs. rewrite step_right_spec in Hs. rewrite Hr.
      destruct (slice_end region + step_distance (scheme region)
                >? right_limit region); [|discriminate].
      injection Hs as _ <-. reflexivity.
  - intros k st ll ss il l Hk El Hlt Ha Hi.
    assert (pass_of self fuel st = (Raised SliceOutOfBoundsError, l)) as Hpass.
    { unfold design_pass. rewrite Ha, Hi. reflexivity. }
    destruct (design_loop_after_passes _ _ _ _ _ _ k st (fuel - k) Hk)
      as (calls & l1 & Hrun).
    replace (k + (fuel - k))%nat with fuel in Hrun by lia.
    destruct (fuel - k)%nat as [|f] eqn:Ef; [lia|].
    rewrite (design_loop_S _ _ _ _ _ _ _ _ El), Hpass in Hrun.
    unfold design_scheme. rewrite Hrun. reflexivity.
Qed.

(** C3.  [design_scheme] raises NoSuitablePrimers only when [find_primers]
    failed on region 1, and [self.regions] is empty then.  When
    [find_primers] fails on region [N = cur_region_num st + 1], after the
    passes that appended the regions of [st]: for [N = 1] the error is
    re-raised and [self.regions] stays empty; for [N > 1] the call returns,
    [self.regions] holds the [N - 1] regions appended so far, numbered
    [1 .. N - 1] in order and each with its pair, and the last call received
    by a progress callback is [(ref_len, ref_len)]. *)
Theorem design_scheme_failure_policy (self : MultiplexScheme) (fuel : nat) :
  (outcome (run_of self fuel) = Raise NoSuitablePrimersError ->
     fails_at self fuel initial_loop /\ scheme_regions (run_of self fuel) = []) /\
  (forall (k : nat) st,
     after_passes self fuel k = Some st ->
     is_last st = false ->
     (k < fuel)%nat ->
     fails_at self fuel st ->
     if cur_region_num st + 1 =? 1 then
       outcome (run_of self fuel) = Raise NoSuitablePrimersError /\
       scheme_regions (run_of self fuel) = []
     else
       outcome (run_of self fuel) = Ok tt /\
       scheme_regions (run_of self fuel) = regions st /\
       Z.of_nat (length (regions st)) = cur_region_num st + 1 - 1 /\
       (forall (i : nat) (r : Region), regions st !! i = Some r ->
          region_num r = Z.of_nat i + 1 /\ exists p, top_pair r = Some p) /\
       (progress_func self = true ->
          last (progress_calls (run_of self fuel)) = Some (ref_len self, ref_len self))).
Proof.
  split.
  - intros H. split; [|apply (design_scheme_raises _ _ _ H)].
    destruct (design_scheme_raises_cases _ _ _ H) as [[_ Hf] | [? _]];
      [exact Hf|discriminate].
  - intros k st Hk El Hlt Hf.
    destruct (passes_well_formed _ _ _ _ _ _ _ _ Hk) as [(Hc & Hp & _) Hn].
    destruct (design_pass_no_suitable _ _ _ _ _ _ _ Hf) as (l & Hpass).
    destruct (design_loop_after_passes _ _ _ _ _ _ k st (fuel - k) Hk)
      as (calls & l0 & Hrun).
    replace (k + (fuel - k))%nat with fuel in Hrun by lia.
    destruct (fuel - k)%nat as [|f] eqn:Ef; [lia|].
    rewrite (design_loop_S _ _ _ _ _ _ _ _ El), Hpass in Hrun.
    unfold design_scheme. rewrite Hrun.
    destruct (cur_region_num st + 1 =? 1); cbn; [auto|].
    split; [reflexivity|]. split; [reflexivity|]. split; [lia|].
    split; [exact Hp|].
    intros ->. rewrite app_nil_r. apply last_snoc.
Qed.

(** C5.  In the scheme of a run that returned, if the end of every selected
    primer is not before its start, then for regions [r1] and [r2] of the
    same pool that follow each other ([region_num] differing by 2) the left
    limit of [r2] is at least the start of the right primer of [r1], plus
    one. *)
Theorem same_pool_regions_do_not_overlap (self : MultiplexScheme) (fuel : nat) :
  outcome (run_of self fuel) = Ok tt ->
  (forall r p, In r (scheme_regions (run_of self fuel)) -> top_pair r = Some p ->
     start (left p) <= end_ (left p) /\ start (right p) <= end_ (right p)) ->
  forall r1 r2 p1,
    In r1 (scheme_regions (run_of self fuel)) ->
    In r2 (scheme_regions (run_of self fuel)) ->
    region_num r2 = region_num r1 + 2 ->
    top_pair r1 = Some p1 ->
    left_limit r2 >= start (right p1) + 1.
Proof.
  intros Hok Hends r1 r2 p1 H1 H2 Hnum Hp1.
  destruct (design_scheme_returns _ _ Hok) as (k & st & Hk & Hrs).
  rewrite Hrs in *.
  destruct (passes_well_formed _ _ _ _ _ _ _ _ Hk) as [(_ & Hp & Hl) _].
  apply list_elem_of_In, list_elem_of_lookup in H1 as (i1 & Hi1).
  apply list_elem_of_In, list_elem_of_lookup in H2 as (i2 & Hi2).
  destruct (Hp _ _ Hi1) as [Hn1 _]. destruct (Hp _ _ Hi2) as [Hn2 _].
  assert (i2 = S (S i1)) as -> by lia.
  destruct (lookup_lt_is_Some_2 (regions st) (S i1)) as (rm & Him).
  { apply lookup_lt_Some in Hi2. lia. }
  destruct (Hp _ _ Him) as (_ & pm & Hpm).
  rewrite (Hl _ _ _ _ _ _ Hi1 Him Hi2 Hp1 Hpm). unfold left_limit_after.
  destruct (Hends rm pm) as [Hm _]; [|exact Hpm|].
  { apply list_elem_of_In, list_elem_of_lookup. eauto. }
  destruct (Z.gtb_spec (start (left pm)) (start (right p1))); lia.
Qed.

(** C6.  For a region with [region_num >= 2], that is after [k >= 1]
    passes, the previous region has a pair [prev], and the arguments of the
    new region are as follows: [is_last] becomes true exactly when
    [ref_len - prev.right.start <= amplicon_size_max]; the slice start is
    [max(prev.right.end - target_overlap - 1 - primer_max_size
         - (amplicon_size_max - amplicon_size_min), left_limit)],
    clamped down to [min(_, ref_len - amplicon_size_max)] when [is_last] is
    true.  A region that the pass appends was constructed with these. *)
Theorem next_region_slice_start (self : MultiplexScheme) (fuel k : nat) (st : Loop) :
  after_passes self fuel k = Some st ->
  (1 <= k)%nat ->
  exists prev_region prev ll ss il,
    cur_region_num st + 1 >= 2 /\
    last (regions st) = Some prev_region /\
    top_pair prev_region = Some prev /\
    region_args self st = Ok (ll, ss, il) /\
    (il = true <-> ref_len self - start (right prev) <= amplicon_size_max self) /\
    (let unclamped :=
       Z.max (end_ (right prev) - target_overlap self - 1 - primer_max_size self
              - (amplicon_size_max self - amplicon_size_min self)) ll in
     ss = if il then Z.min unclamped (ref_len self - amplicon_size_max self)
          else unclamped) /\
    (forall st' calls l,
       pass_of self fuel st = (Appended st' calls, l) ->
       is_last st' = il /\
       exists region',
         last (regions st') = Some region' /\
         region_num region' = cur_region_num st + 1 /\
         left_limit region' = ll /\
         _initial_slice_start region' = ss).
Proof.
  intros Hk Hk1.
  destruct (passes_well_formed _ _ _ _ _ _ _ _ Hk) as [(Hc & Hp & _) Hn].
  destruct (snoc_cases (regions st)) as [Hr | (rs0 & r1 & Hr)].
  { rewrite Hr in Hc. cbn in Hc. lia. }
  destruct (Hp (length rs0) r1) as (_ & p1 & Hp1).
  { rewrite Hr. apply list_lookup_middle. reflexivity. }
  assert (exists pip,
             (rs0 = [] /\ pip = None) \/
             (exists rs00 r0 p0,
                 rs0 = rs00 ++ [r0] /\ top_pair r0 = Some p0 /\ pip = Some p0))
    as (pip & Hpip).
  { destruct (snoc_cases rs0) as [-> | (rs00 & r0 & ->)]; [eauto|].
    destruct (Hp (length rs00) r0) as (_ & p0 & Hp0).
    - rewrite Hr, <- app_assoc. apply list_lookup_middle. reflexivity.
    - exists (Some p0). right. eauto 6. }
  pose proof (region_args_next self st rs0 r1 p1 pip Hr Hc Hp1 Hpip) as Ha.
  exists r1, p1, (left_limit_after p1 pip),
    (slice_start_after self p1 (left_limit_after p1 pip)), (few_bases_left self p1).
  split; [lia|]. split; [rewrite Hr; apply last_snoc|].
  split; [exact Hp1|]. split; [exact Ha|]. split; [|split].
  - unfold few_bases_left. apply Z.leb_le.
  - reflexivity.
  - intros st' calls l Hpass.
    destruct (design_pass_appended _ _ _ _ _ _ _ _ _ _ Hpass)
      as (ll & ss & il & region & l0 & region' & l1 & tp &
          Ha' & Hi & _ & Hf & _ & -> & _).
    rewrite Ha in Ha'. injection Ha' as <- <- <-.
    split; [reflexivity|]. exists region'. cbn [regions].
    split; [apply last_snoc|].
    destruct (Region_init_cases (cur_region_num st + 1) self
                (left_limit_after p1 pip)
                (slice_start_after self p1 (left_limit_after p1 pip)) None)
      as [(l0' & Hi') | (region0 & l0' & Hi' & Hnum & _ & Hll & _ & Hinit)];
      rewrite Hi in Hi'; [discriminate|].
    injection Hi' as <- <-.
    destruct Hf as (_ & Hfl & _ & Hfi & Hfn & _).
    rewrite Hfn, Hfl, Hfi. auto.
Qed.

End Scheme.

(** ** The statements at concrete inputs *)

Lemma ends_ordered_all (rs : list Region) :
  forallb ends_ordered rs = true ->
  forall r p, In r rs -> top_pair r = Some p ->
    start (left p) <= end_ (left p) /\ start (right p) <= end_ (right p).
Proof.
  intros H r p Hin Hp. rewrite forallb_forall in H. specialize (H r Hin).
  unfold ends_ordered in H. rewrite Hp in H.
  apply andb_prop in H as [H1 H2]. split; apply Z.leb_le; assumption.
Qed.

(** The step distance has to be positive for [find_primers] to end: with
    step distance 0 on a slice without candidates every left step succeeds
    and moves nowhere. *)
Lemma find_primers_zero_step_never_ends (fuel : nat) :
  fst (fst (Fixture.retry fuel Fixture.still_region)) = OutOfFuel.
Proof.
  unfold Fixture.retry, find_primers.
  induction fuel as [|f IH]; [reflexivity|].
  rewrite (loop_insufficient _ _ _ _ f false Fixture.still_region
             [LFinding 0 30]) by (vm_compute; reflexivity).
  change (moved_to _ Fixture.still_region) with Fixture.still_region.
  cbv zeta. change (_ <? _) with false. cbv iota.
  destruct (find_primers_loop _ _ _ _ f false Fixture.still_region)
    as [[res r'] l].
  exact IH.
Qed.

(** Two candidates on either side: the pairs have combined penalties
    2, 2, 3/2, 3/2 in cross-product order, and the third is selected. *)
Lemma top_pair_first_minimum_witness :
  let r := Fixture.region_at 1 (Fixture.bases "A" 100) 0 0 in
  let run := _find_primers_for_slice Fixture.design_two Fixture.reverse_complement
               Fixture.align_all Fixture.penalty_sum r in
  exists lefts rights top before after (i j : nat) li rj,
    filter_candidates Fixture.align_all (references (scheme r))
      (designed_candidates Fixture.design_two Fixture.reverse_complement r)
      = Ok (lefts, rights) /\
    top_pair (snd (fst run)) = Some top /\
    cross_product lefts rights = before ++ top :: after /\
    Forall (fun p => (Fixture.penalty_sum top < Fixture.penalty_sum p)%Q) before /\
    Forall (fun p => (Fixture.penalty_sum top <= Fixture.penalty_sum p)%Q) after /\
    length (before ++ top :: after) = (length lefts * length rights)%nat /\
    (forall (i' j' : nat) l' r2,
       lefts !! i' = Some l' -> rights !! j' = Some r2 ->
       (before ++ top :: after) !! (i' * length rights + j')%nat
         = Some (mkPair l' r2)) /\
    lefts !! i = Some li /\ rights !! j = Some rj /\ top = mkPair li rj /\
    (forall (i' j' : nat) l' r2,
       lefts !! i' = Some l' -> rights !! j' = Some r2 ->
       (Fixture.penalty_sum top <= Fixture.penalty_sum (mkPair l' r2))%Q /\
       ((i' < i)%nat \/ (i' = i /\ (j' < j)%nat) ->
        (Fixture.penalty_sum top < Fixture.penalty_sum (mkPair l' r2))%Q)).
Proof.
  intros r run.
  apply (top_pair_first_minimum Fixture.design_two Fixture.reverse_complement
           Fixture.align_all Fixture.penalty_sum r (snd (fst run)) (snd run)).
  vm_compute. reflexivity.
Defined.

(** A region that steps twice to the left, is reset and then steps to the
    right until the unknown bases are behind it. *)
Lemma find_primers_terminates_witness :
  0 < step_distance (scheme Fixture.stuck_region) /\
  exists res r' l,
    Fixture.retry (attempts_bound Fixture.stuck_region) Fixture.stuck_region
      = (res, r', l) /\
    terminal res r' /\
    (attempts l <= attempts_bound Fixture.stuck_region)%nat.
Proof.
  split; [reflexivity|].
  apply (proj1 (find_primers_terminates Fixture.design_one
                  Fixture.reverse_complement Fixture.align_all Fixture.penalty_sum
                  Fixture.stuck_region eq_refl)).
  apply le_n.
Defined.

Lemma left_exhaustion_searches_initial_slice_again_witness :
  let r := Fixture.stuck_region in
  let l := snd (Fixture.retry 20 r) in
  In LLeftLimit l /\
  exists mid after,
    l = LFinding 11 41 :: mid ++ LLeftLimit :: after /\
    Forall (fun m => is_right_move m = false /\ m <> LLeftLimit) mid /\
    ((after = [] /\ fst (fst (Fixture.retry 20 r)) = OutOfFuel) \/
     exists after', after = LFinding 11 41 :: after') /\
    (slice_start r = _initial_slice_start r ->
     fst (fst (Fixture.retry 20 r)) <> OutOfFuel ->
     exists after', l = LFinding 11 41 :: mid ++ LLeftLimit :: LFinding 11 41 :: after').
Proof.
  intros r l.
  assert (In LLeftLimit l) as Hin.
  { vm_compute. do 3 right. left. reflexivity. }
  split; [exact Hin|].
  apply (left_exhaustion_searches_initial_slice_again Fixture.design_one
           Fixture.reverse_complement Fixture.align_all Fixture.penalty_sum
           20 r (snd (fst (Fixture.retry 20 r))) (fst (fst (Fixture.retry 20 r))) l).
  - vm_compute. reflexivity.
  - exact Hin.
Defined.

(** C2 as stated fails: on a reference of 10 bases, shorter than the
    largest amplicon (30), the window of region 1 cannot be constructed and
    the bounds error leaves [design_scheme]. *)
Lemma bounds_error_leaves_design_scheme :
  outcome (Fixture.run (Fixture.bases "A" 10) 1) = Raise SliceOutOfBoundsError /\
  SliceOutOfBoundsError <> NoSuitablePrimersError.
Proof. split; [reflexivity|discriminate]. Qed.

(** The same after a region was designed: region 1 is found at slice 70 of
    100 bases, region 2 is the last one, its slice start is clamped to 70,
    below its left limit 74, and the construction of its window fails. *)
Lemma bounds_error_on_last_region :
  outcome (Fixture.run (Fixture.bases "N" 70 ++ Fixture.bases "A" 30) 20)
    = Raise SliceOutOfBoundsError /\
  progress_calls (Fixture.run (Fixture.bases "N" 70 ++ Fixture.bases "A" 30) 20)
    = [(97, 100)].
Proof. split; vm_compute; reflexivity. Qed.

(** On unknown bases only [find_primers] ends with NoSuitablePrimers.
    From slice 0 at left limit 0 the failed left step resets the slice and
    the search goes on to the right; from slice 70 of 100 bases the failed
    right step ends the search.  The window of region 1 on 10 bases, and
    the window of region 2 after region 1 was found at slice 70, cannot be
    constructed, and the bounds error leaves [design_scheme]. *)
Lemma errors_leaving_design_scheme_witness :
  NoSuitablePrimersError = NoSuitablePrimersError /\
  find_primers_loop Fixture.design_one Fixture.reverse_complement
    Fixture.align_all Fixture.penalty_sum 3 false Fixture.hopeless_region =
  prepend_log ([LFinding 0 30] ++ [LLeftLimit])
    (find_primers_loop Fixture.design_one Fixture.reverse_complement
       Fixture.align_all Fixture.penalty_sum 2 true
       (moved_to (_initial_slice_start Fixture.hopeless_region)
          Fixture.hopeless_region)) /\
  find_primers_loop Fixture.design_one Fixture.reverse_complement
    Fixture.align_all Fixture.penalty_sum 3 true
    (Fixture.region_at 1 (Fixture.bases "N" 100) 0 70) =
  (Raise NoSuitablePrimersError,
   Fixture.region_at 1 (Fixture.bases "N" 100) 0 70,
   [LFinding 70 100] ++ [LRightLimit]) /\
  outcome (design_scheme Fixture.design_one Fixture.reverse_complement
             Fixture.align_all Fixture.penalty_sum
             (Fixture.scheme_of (Fixture.bases "A" 10)) 1)
    = Raise SliceOutOfBoundsError /\
  outcome (design_scheme Fixture.design_one Fixture.reverse_complement
             Fixture.align_all Fixture.penalty_sum
             (Fixture.scheme_of (Fixture.bases "N" 70 ++ Fixture.bases "A" 30)) 20)
    = Raise SliceOutOfBoundsError.
Proof.
  split; [|split; [|split; [|split]]].
  - apply (proj1 (errors_leaving_design_scheme Fixture.design_one
                    Fixture.reverse_complement Fixture.align_all Fixture.penalty_sum
                    (Fixture.scheme_of (Fixture.bases "N" 100)) 20)
             (Fixture.region_at 1 (Fixture.bases "N" 100) 0 0)
             NoSuitablePrimersError
             (snd (fst (Fixture.retry 20
                          (Fixture.region_at 1 (Fixture.bases "N" 100) 0 0))))
             (snd (Fixture.retry 20
                     (Fixture.region_at 1 (Fixture.bases "N" 100) 0 0)))).
    vm_compute. reflexivity.
  - assert (_find_primers_for_slice Fixture.design_one Fixture.reverse_complement
              Fixture.align_all Fixture.penalty_sum Fixture.hopeless_region
            = (Raise InsufficientPrimersError, Fixture.hopeless_region,
               [LFinding 0 30])) as Ha by (vm_compute; reflexivity).
    apply (proj1 (proj1 (proj2 (errors_leaving_design_scheme Fixture.design_one
                    Fixture.reverse_complement Fixture.align_all Fixture.penalty_sum
                    (Fixture.scheme_of (Fixture.bases "N" 100)) 20))
                    2%nat Fixture.hopeless_region [LFinding 0 30] Ha)
              (window Fixture.hopeless_region) [LLeftLimit]).
    vm_compute. reflexivity.
  - assert (_find_primers_for_slice Fixture.design_one Fixture.reverse_complement
              Fixture.align_all Fixture.penalty_sum
              (Fixture.region_at 1 (Fixture.bases "N" 100) 0 70)
            = (Raise InsufficientPrimersError,
               Fixture.region_at 1 (Fixture.bases "N" 100) 0 70,
               [LFinding 70 100])) as Ha by (vm_compute; reflexivity).
    apply (proj2 (proj1 (proj2 (errors_leaving_design_scheme Fixture.design_one
                    Fixture.reverse_complement Fixture.align_all Fixture.penalty_sum
                    (Fixture.scheme_of (Fixture.bases "N" 100)) 20))
                    2%nat (Fixture.region_at 1 (Fixture.bases "N" 100) 0 70)
                    [LFinding 70 100] Ha)
              (window (Fixture.region_at 1 (Fixture.bases "N" 100) 0 70))
              [LRightLimit]).
    vm_compute. reflexivity.
  - eapply (proj2 (proj2 (errors_leaving_design_scheme Fixture.design_one
                    Fixture.reverse_complement Fixture.align_all Fixture.penalty_sum
                    (Fixture.scheme_of (Fixture.bases "A" 10)) 1))
              0%nat initial_loop).
    + reflexivity.
    + reflexivity.
    + lia.
    + vm_compute. reflexivity.
    + vm_compute. reflexivity.
  - eapply (proj2 (proj2 (errors_leaving_design_scheme Fixture.design_one
                    Fixture.reverse_complement Fixture.align_all Fixture.penalty_sum
                    (Fixture.scheme_of (Fixture.bases "N" 70 ++ Fixture.bases "A" 30))
                    20))
              1%nat).
    + vm_compute. reflexivity.
    + reflexivity.
    + lia.
    + vm_compute. reflexivity.
    + vm_compute. reflexivity.
Defined.

(** Region 5 fails after regions 1 to 4 succeeded: the call returns with
    four regions.  Region 1 fails: the error is re-raised. *)
Lemma design_scheme_failure_policy_witness :
  (outcome (Fixture.run Fixture.unknown_end 20) = Ok tt /\
   scheme_regions (Fixture.run Fixture.unknown_end 20)
     = regions (Fixture.state_after Fixture.unknown_end 20 4) /\
   Z.of_nat (length (regions (Fixture.state_after Fixture.unknown_end 20 4)))
     = 5 - 1 /\
   (forall (i : nat) (r : Region),
      regions (Fixture.state_after Fixture.unknown_end 20 4) !! i = Some r ->
      region_num r = Z.of_nat i + 1 /\ exists p, top_pair r = Some p) /\
   (progress_func (Fixture.scheme_of Fixture.unknown_end) = true ->
    last (progress_calls (Fixture.run Fixture.unknown_end 20)) = Some (100, 100))) /\
  (outcome (Fixture.run (Fixture.bases "N" 100) 20) = Raise NoSuitablePrimersError /\
   scheme_regions (Fixture.run (Fixture.bases "N" 100) 20) = []).
Proof.
  split.
  - apply (proj2 (design_scheme_failure_policy Fixture.design_one
                    Fixture.reverse_complement Fixture.align_all Fixture.penalty_sum
                    (Fixture.scheme_of Fixture.unknown_end) 20)
             4%nat (Fixture.state_after Fixture.unknown_end 20 4)).
    + vm_compute. reflexivity.
    + vm_compute. reflexivity.
    + lia.
    + apply no_suitable_primers_atb_true. vm_compute. reflexivity.
  - apply (proj2 (design_scheme_failure_policy Fixture.design_one
                    Fixture.reverse_complement Fixture.align_all Fixture.penalty_sum
                    (Fixture.scheme_of (Fixture.bases "N" 100)) 20)
             0%nat initial_loop).
    + reflexivity.
    + reflexivity.
    + lia.
    + apply no_suitable_primers_atb_true. vm_compute. reflexivity.
Defined.

(** Six regions over 100 bases: region 3 starts after the right primer of
    region 1, region 4 after that of region 2. *)
Lemma same_pool_regions_do_not_overlap_witness :
  left_limit (Fixture.region_of (Fixture.run (Fixture.bases "A" 100) 20) 2)
    >= start (right (Fixture.pair_of
                       (Fixture.region_of (Fixture.run (Fixture.bases "A" 100) 20) 0)))
       + 1 /\
  left_limit (Fixture.region_of (Fixture.run (Fixture.bases "A" 100) 20) 3)
    >= start (right (Fixture.pair_of
                       (Fixture.region_of (Fixture.run (Fixture.bases "A" 100) 20) 1)))
       + 1.
Proof.
  unfold Fixture.run. split.
  - apply (same_pool_regions_do_not_overlap Fixture.design_one
             Fixture.reverse_complement Fixture.align_all Fixture.penalty_sum
             (Fixture.scheme_of (Fixture.bases "A" 100)) 20)
      with (r1 := Fixture.region_of (Fixture.run (Fixture.bases "A" 100) 20) 0).
    + vm_compute. reflexivity.
    + apply ends_ordered_all. vm_compute. reflexivity.
    + vm_compute. left. reflexivity.
    + vm_compute. do 2 right. left. reflexivity.
    + vm_compute. reflexivity.
    + vm_compute. reflexivity.
  - apply (same_pool_regions_do_not_overlap Fixture.design_one
             Fixture.reverse_complement Fixture.align_all Fixture.penalty_sum
             (Fixture.scheme_of (Fixture.bases "A" 100)) 20)
      with (r1 := Fixture.region_of (Fixture.run (Fixture.bases "A" 100) 20) 1).
    + vm_compute. reflexivity.
    + apply ends_ordered_all. vm_compute. reflexivity.
    + vm_compute. right. left. reflexivity.
    + vm_compute. do 3 right. left. reflexivity.
    + vm_compute. reflexivity.
    + vm_compute. reflexivity.
Defined.

(** The arguments of region 6, the last one, on 100 bases: the previous
    right primer starts at 83, and 100 - 83 <= 30. *)
Lemma next_region_slice_start_witness :
  let self := Fixture.scheme_of (Fixture.bases "A" 100) in
  let st := Fixture.state_after (Fixture.bases "A" 100) 20 5 in
  exists prev_region prev ll ss il,
    cur_region_num st + 1 >= 2 /\
    last (regions st) = Some prev_region /\
    top_pair prev_region = Some prev /\
    region_args self st = Ok (ll, ss, il) /\
    (il = true <-> ref_len self - start (right prev) <= amplicon_size_max self) /\
    (let unclamped :=
       Z.max (end_ (right prev) - target_overlap self - 1 - primer_max_size self
              - (amplicon_size_max self - amplicon_size_min self)) ll in
     ss = if il then Z.min unclamped (ref_len self - amplicon_size_max self)
          else unclamped) /\
    (forall st' calls l,
       design_pass Fixture.design_one Fixture.reverse_complement
         Fixture.align_all Fixture.penalty_sum self 20 st = (Appended st' calls, l) ->
       is_last st' = il /\
       exists region',
         last (regions st') = Some region' /\
         region_num region' = cur_region_num st + 1 /\
         left_limit region' = ll /\
         _initial_slice_start region' = ss).
Proof.
  intros self st.
  apply (next_region_slice_start Fixture.design_one
           Fixture.reverse_complement Fixture.align_all Fixture.penalty_sum
           self 20 5 st).
  - vm_compute. reflexivity.
  - repeat constructor.
Defined.

(** * Further properties of the code *)

(** ** Window *)

(** The constructor establishes the bounds, and with a step distance that
    is not negative every mutator keeps them, whether it succeeds or
    raises. *)
Theorem window_stays_in_bounds :
  (forall s ll ss rl w l, Window_init s ll ss rl = (Ok w, l) -> in_bounds w) /\
  (forall w, 0 <= step_distance (scheme w) -> in_bounds w ->
     (forall res w' l, step_left w = (res, w', l) -> in_bounds w') /\
     (forall res w' l, step_right w = (res, w', l) -> in_bounds w') /\
     (forall res w' l, reset_slice w = (res, w', l) -> in_bounds w')).
Proof.
  split.
  - intros s ll ss rl w l H.
    apply Window_init_ok in H as (Hsch & Hll & Hs & Hi & _ & Hl & Hr).
    unfold in_bounds, slice_end in *. lia.
  - intros w Hd (H1 & H2 & H3 & H4). unfold in_bounds, slice_end in *.
    split; [|split].
    + intros res w' l. rewrite step_left_spec.
      destruct (Z.ltb_spec (slice_start w - step_distance (scheme w)) (left_limit w));
        intros [= _ <- _]; cbn; lia.
    + intros res w' l. rewrite step_right_spec. unfold slice_end.
      destruct (slice_start w + amplicon_size_max (scheme w)
                + step_distance (scheme w) >? right_limit w) eqn:E;
        intros [= _ <- _]; cbn; lia.
    + intros res w' l. rewrite reset_slice_spec. intros [= _ <- _]. cbn. lia.
Qed.

Lemma window_stays_in_bounds_witness :
  in_bounds Fixture.window_20 /\
  in_bounds (set_slice_start 15 Fixture.window_20) /\
  in_bounds (set_slice_start 25 Fixture.window_20).
Proof.
  assert (in_bounds Fixture.window_20) as Hb.
  { apply (proj1 window_stays_in_bounds
             (Fixture.scheme_of (Fixture.bases "A" 100)) 0 20 None
             Fixture.window_20 [LWindow 0 20 100]).
    reflexivity. }
  split; [exact Hb|]. split.
  - apply (proj1 (proj2 window_stays_in_bounds Fixture.window_20
                    ltac:(cbn; lia) Hb)
             (Ok tt) _ [LSteppingLeft 15]).
    reflexivity.
  - apply (proj1 (proj2 (proj2 window_stays_in_bounds Fixture.window_20
                           ltac:(cbn; lia) Hb))
             (Ok tt) _ [LSteppingRight 25]).
    reflexivity.
Defined.

Lemma py_slice_inside {A} (l : list A) (a b : Z) :
  0 <= a -> a <= b -> b <= Z.of_nat (length l) ->
  py_slice l a b = take (Z.to_nat (b - a)) (drop (Z.to_nat a) l) /\
  length (py_slice l a b) = Z.to_nat (b - a).
Proof.
  intros Ha Hab Hb. unfold py_slice, py_index_clamp.
  destruct (Z.ltb_spec a 0); [lia|]. destruct (Z.ltb_spec b 0); [lia|].
  rewrite !Z.min_l by lia. split; [reflexivity|].
  change (@firstn A) with (@take A). change (@skipn A) with (@drop A).
  rewrite length_take, length_drop. lia.
Qed.

(** The slice of a window that is within its bounds, between 0 and the end
    of the primary reference, holds exactly [amplicon_size_max] bases: those
    from [slice_start] on. *)
Theorem ref_slice_length (w : Window) :
  in_bounds w ->
  0 <= left_limit w ->
  right_limit w <= ref_len (scheme w) ->
  0 <= amplicon_size_max (scheme w) ->
  ref_slice w =
    take (Z.to_nat (amplicon_size_max (scheme w)))
      (drop (Z.to_nat (slice_start w)) (primary_ref (scheme w))) /\
  Z.of_nat (length (ref_slice w)) = amplicon_size_max (scheme w).
Proof.
  intros (H1 & H2 & _) Hl Hr Ha. unfold ref_slice, slice_end, ref_len in *.
  destruct (py_slice_inside (primary_ref (scheme w)) (slice_start w)
              (slice_start w + amplicon_size_max (scheme w))) as [He Hn];
    [lia..|].
  rewrite Hn, He.
  replace (slice_start w + amplicon_size_max (scheme w) - slice_start w)
    with (amplicon_size_max (scheme w)) by lia.
  split; [reflexivity|lia].
Qed.

Lemma ref_slice_length_witness :
  Z.of_nat (length (ref_slice Fixture.window_20)) = 30.
Proof.
  apply (ref_slice_length Fixture.window_20).
  - unfold in_bounds, slice_end. cbn. lia.
  - cbn. lia.
  - vm_compute. discriminate.
  - vm_compute. discriminate.
Defined.

(** ** The filtering pass *)

Section FilterFacts.

Variable align : Primer -> list Seq -> aligned.
Variable refs : list Seq.

Lemma filter_from_exhausted (n idx : nat) (d : list Primer) :
  (length d <= idx)%nat -> filter_from align refs n idx d = Ok d.
Proof.
  intros H. destruct n; [reflexivity|]. simpl.
  rewrite (lookup_ge_None_2 d idx) by lia. reflexivity.
Qed.

Lemma filter_from_keeps_half (n : nat) : forall (idx : nat) (d d' : list Primer),
  (idx <= length d)%nat ->
  filter_from align refs n idx d = Ok d' ->
  (2 * length d <= 2 * length d' + (length d - idx) + 1)%nat.
Proof.
  induction n as [|n IH]; intros idx d d' Hidx; simpl.
  - intros [= <-]. lia.
  - destruct (d !! idx) as [p|] eqn:E; [|intros [= <-]; lia].
    pose proof (lookup_lt_Some _ _ _ E) as Hlt.
    assert (forall p' r, py_remove idx (<[idx := p']> d) = Some r ->
              filter_from align refs n (S idx) r = Ok d' ->
              (2 * length d <= 2 * length d' + (length d - idx) + 1)%nat) as Hrm.
    { intros p' r Hr Hrun.
      destruct (py_remove_In idx (<[idx := p']> d)) as (r' & Hr' & Hl).
      { eapply insert_In_at; eauto. }
      rewrite length_insert in Hl. assert (r' = r) by congruence. subst r'.
      destruct (decide (S idx <= length r)%nat) as [Hle|Hgt].
      - specialize (IH _ _ _ Hle Hrun). lia.
      - rewrite filter_from_exhausted in Hrun by lia.
        injection Hrun as <-. lia. }
    destruct (align p refs) as [p'|p'].
    + destruct (Qgtb _ _).
      * destruct (py_remove idx _) as [r|] eqn:Er; [|discriminate]. eauto.
      * intros Hrun. apply IH in Hrun; rewrite ?length_insert in *; lia.
    + destruct (py_remove idx _) as [r|] eqn:Er; [|discriminate]. eauto.
Qed.

Lemma filter_direction_bounds (d : list Primer) :
  exists d',
    filter_direction align refs d = Ok d' /\
    (length d' <= length d)%nat /\
    (length d <= 2 * length d' + 1)%nat.
Proof.
  destruct (filter_from_total align refs (length d) 0 d) as (d' & H & Hle).
  exists d'. split; [exact H|]. split; [exact Hle|].
  pose proof (filter_from_keeps_half _ _ _ _ (Nat.le_0_l _) H). lia.
Qed.

(** The scan of a direction never raises (the element handed to [remove]
    is always found), never lengthens the list, and, since it skips the
    candidate that follows each one it removes, leaves at least half of the
    candidates in place, rounded down. *)
Theorem filter_direction_keeps_half (d : list Primer) :
  exists d',
    filter_direction align refs d = Ok d' /\
    (length d' <= length d)%nat /\
    (length d <= 2 * length d' + 1)%nat.
Proof.
  destruct (filter_direction_bounds d) as (d' & H). exists d'. exact H.
Qed.

Lemma filter_from_all_pass (todo : list Primer) : forall (done : list Primer) (n : nat),
  (length todo <= n)%nat ->
  (forall p, In p todo ->
     exists p', align p refs = Aligned p' /\ (penalty p' <= PENALTY_THRESHOLD)%Q) ->
  filter_from align refs n (length done) (done ++ todo) =
    Ok (done ++ map (fun p => aligned_primer (align p refs)) todo).
Proof.
  induction todo as [|p todo IH]; intros done n Hn Hall.
  - rewrite filter_from_exhausted by (rewrite app_nil_r; lia). reflexivity.
  - destruct n as [|n]; [simpl in Hn; lia|]. simpl in Hn.
    cbn [filter_from]. rewrite list_lookup_middle by reflexivity.
    destruct (Hall p) as (p' & Hp & Hq); [left; reflexivity|].
    rewrite Hp. unfold Qgtb.
    apply Qle_bool_iff in Hq. rewrite Hq. cbn [negb].
    replace (<[length done := p']> (done ++ p :: todo))
      with ((done ++ [p']) ++ todo).
    2:{ rewrite <- app_assoc. cbn [app].
        replace (length done) with (length done + 0)%nat at 1 by lia.
        rewrite insert_app_r. reflexivity. }
    replace (S (length done)) with (length (done ++ [p']))
      by (rewrite length_app; cbn; lia).
    rewrite IH; [|lia|intros q Hin; apply Hall; right; exact Hin].
    rewrite <- app_assoc. cbn [app map]. rewrite Hp. reflexivity.
Qed.

(** When every candidate of a direction aligns and stays within the
    penalty threshold, the scan removes nothing: the direction holds all
    the candidates, as the aligner left them, in their order. *)
Theorem filter_direction_keeps_passing (d : list Primer) :
  (forall p, In p d ->
     exists p', align p refs = Aligned p' /\ (penalty p' <= PENALTY_THRESHOLD)%Q) ->
  filter_direction align refs d =
    Ok (map (fun p => aligned_primer (align p refs)) d).
Proof.
  intros H. apply (filter_from_all_pass d [] (length d)); [lia|exact H].
Qed.

End FilterFacts.

Lemma filter_direction_keeps_passing_witness :
  filter_direction Fixture.align_all [] Fixture.good_candidates =
    Ok (map (fun p => aligned_primer (Fixture.align_all p [])) Fixture.good_candidates).
Proof.
  apply (filter_direction_keeps_passing Fixture.align_all [] Fixture.good_candidates).
  intros p Hin. exists p. split; [reflexivity|].
  destruct Hin as [<-|[<-|[<-|[]]]]; vm_compute; discriminate.
Defined.

(** ** Single attempts and the retry loop *)

Section RetryFacts.

Variable design_primers : Seq -> Z -> P3Global -> bool -> list Primer.
Variable reverse_complement : Seq -> Seq.
Variable align : Primer -> list Seq -> aligned.
Variable combined_penalty : CandidatePrimerPair -> Q.

Abbreviation attempt :=
  (_find_primers_for_slice design_primers reverse_complement align combined_penalty).
Abbreviation designed := (designed_candidates design_primers reverse_complement).
Abbreviation loop :=
  (find_primers_loop design_primers reverse_complement align combined_penalty).
Abbreviation find :=
  (find_primers design_primers reverse_complement align combined_penalty).

Lemma filter_candidates_parts (refs : list Seq) (c : list Primer * list Primer)
    (lefts rights : list Primer) :
  filter_candidates align refs c = Ok (lefts, rights) ->
  filter_direction align refs (fst c) = Ok lefts /\
  filter_direction align refs (snd c) = Ok rights.
Proof.
  unfold filter_candidates.
  destruct (filter_direction align refs (fst c)) as [l| |]; try discriminate.
  destruct (filter_direction align refs (snd c)) as [r| |]; try discriminate.
  intros [= <- <-]. auto.
Qed.

(** A single-slice attempt raises nothing but the insufficient-primers
    condition and leaves the region as it was when it does; and because the
    filtering pass cannot empty a list of two or more candidates, it raises
    only when the design engine returned at most one candidate for one of
    the two directions. *)
Theorem attempt_fails_only_on_scarce_candidates
    (r r' : Region) (e : exn) (l : Log) :
  attempt r = (Raise e, r', l) ->
  e = InsufficientPrimersError /\ r' = r /\
  ((length (fst (designed r)) <= 1)%nat \/ (length (snd (designed r)) <= 1)%nat).
Proof.
  intros Hrun.
  destruct (attempt_spec design_primers reverse_complement align combined_penalty r)
    as (lefts & rights & Hf & [[He H] | [_ (top & rest & _ & H)]]);
    rewrite H in Hrun; [|discriminate].
  injection Hrun as <- <- _. split; [reflexivity|]. split; [reflexivity|].
  apply filter_candidates_parts in Hf as [Hl Hr].
  destruct (filter_direction_bounds align (references (scheme r))
              (fst (designed r))) as (l' & Hl' & _ & Hbl).
  destruct (filter_direction_bounds align (references (scheme r))
              (snd (designed r))) as (r'' & Hr' & _ & Hbr).
  rewrite Hl in Hl'. rewrite Hr in Hr'. injection Hl' as <-. injection Hr' as <-.
  destruct lefts as [|x lefts]; [left; exact Hbl|].
  destruct rights as [|y rights]; [right; exact Hbr|].
  discriminate.
Qed.

(** A successful run of the loop succeeded at some position of the same
    window frame, which is within the bounds when the region was and the
    step distance is not negative. *)
Lemma loop_success_at (fuel : nat) : forall (ex : bool) (r r' : Region) (l : Log),
  loop fuel ex r = (Ok tt, r', l) ->
  exists rc l',
    attempt rc = (Ok tt, r', l') /\ same_frame r rc /\
    (0 <= step_distance (scheme r) -> in_bounds r -> in_bounds rc).
Proof.
  induction fuel as [|f IH]; intros ex r r' l; [rewrite loop_O; discriminate|].
  destruct (attempt_spec design_primers reverse_complement align combined_penalty r)
    as (lefts & rights & _ & [[_ H] | [_ (top & rest & _ & H)]]).
  - rewrite (loop_insufficient _ _ _ _ _ _ _ _ H). cbv zeta.
    assert (forall ex' v res r2 l2 l0,
              (0 <= step_distance (scheme r) -> in_bounds r ->
               in_bounds (moved_to v r)) ->
              loop f ex' (moved_to v r) = (res, r2, l2) ->
              prepend_log l0 (res, r2, l2) = (Ok tt, r', l) ->
              exists rc l',
                attempt rc = (Ok tt, r', l') /\ same_frame r rc /\
                (0 <= step_distance (scheme r) -> in_bounds r -> in_bounds rc))
      as Hrec.
    { intros ex' v res r2 l2 l0 Hb E [= -> -> _].
      destruct (IH _ _ _ _ E) as (rc & l' & Ha & Hf & Hin).
      exists rc, l'. split; [exact Ha|]. split; [exact Hf|].
      intros Hd Hr. apply Hin; [exact Hd|apply Hb; assumption]. }
    destruct ex.
    + destruct (slice_end r + step_distance (scheme r) >? right_limit r) eqn:E;
        [discriminate|].
      destruct (loop f true _) as [[res r2] l2] eqn:E2.
      eapply Hrec; [|exact E2].
      unfold in_bounds, slice_end in *. cbn. lia.
    + destruct (Z.ltb_spec (slice_start r - step_distance (scheme r)) (left_limit r)).
      * destruct (loop f true _) as [[res r2] l2] eqn:E2.
        eapply Hrec; [|exact E2].
        unfold in_bounds, slice_end. cbn. lia.
      * destruct (loop f false _) as [[res r2] l2] eqn:E2.
        eapply Hrec; [|exact E2].
        unfold in_bounds, slice_end. cbn. lia.
  - rewrite (loop_success _ _ _ _ _ _ _ _ _ H). intros [= <- <-].
    exists r. eexists. split; [exact H|]. split; [apply same_frame_refl|auto].
Qed.

(** When [find_primers] succeeds, only [slice_start], [candidate_pairs] and
    [top_pair] have changed; [candidate_pairs] is a rearrangement, in
    ascending order of combined penalty, of the list [cs] that holds the
    pair of every candidate surviving the filtering pass at the final slice
    on the left with every one on the right and nothing else (the pair of
    the [i]-th left and the [j]-th right candidate at index
    [i * length rights + j]); and [top_pair] is its first element. *)
Theorem find_primers_success_state (fuel : nat) (r r' : Region) (l : Log) :
  find fuel r = (Ok tt, r', l) ->
  same_frame r r' /\
  exists lefts rights top rest cs,
    filter_candidates align (references (scheme r')) (designed r')
      = Ok (lefts, rights) /\
    lefts <> [] /\ rights <> [] /\
    candidate_pairs r' = top :: rest /\
    top_pair r' = Some top /\
    length cs = (length lefts * length rights)%nat /\
    (forall (i j : nat) li rj,
       lefts !! i = Some li -> rights !! j = Some rj ->
       cs !! (i * length rights + j)%nat = Some (mkPair li rj)) /\
    Permutation cs (candidate_pairs r') /\
    Permutation (cross_product lefts rights) (candidate_pairs r') /\
    Sorted (key_le combined_penalty) (candidate_pairs r').
Proof.
  intros Hrun. unfold find_primers in Hrun.
  destruct (loop_success_at _ _ _ _ _ Hrun) as (rc & l' & Ha & Hf & _).
  destruct (attempt_spec design_primers reverse_complement align combined_penalty rc)
    as (lefts & rights & Hfc & [[_ H] | [He (top & rest & Hs & H)]]);
    rewrite H in Ha; [discriminate|].
  injection Ha as <- _. split; [exact Hf|].
  exists lefts, rights, top, rest, (cross_product lefts rights). cbn.
  split; [exact Hfc|].
  split; [intros ->; discriminate|].
  split; [intros ->; destruct lefts; discriminate|].
  split; [reflexivity|]. split; [reflexivity|].
  split; [apply cross_product_length|].
  split; [intros i j li rj; apply cross_product_lookup|].
  rewrite <- Hs.
  split; [apply sort_by_key_perm|].
  split; [apply sort_by_key_perm|apply sort_by_key_sorted].
Qed.

(** A run of the loop that raises does so with the terminal error, on a
    right step that hit the right limit. *)
Lemma loop_failure (fuel : nat) : forall (ex : bool) (r r' : Region) e (l : Log),
  loop fuel ex r = (Raise e, r', l) ->
  e = NoSuitablePrimersError /\
  last l = Some LRightLimit /\
  slice_end r' + step_distance (scheme r') > right_limit r' /\
  (ex = false -> In LLeftLimit l).
Proof.
  induction fuel as [|f IH]; intros ex r r' e l; [rewrite loop_O; discriminate|].
  destruct (attempt_spec design_primers reverse_complement align combined_penalty r)
    as (lefts & rights & _ & [[_ H] | [_ (top & rest & _ & H)]]).
  - rewrite (loop_insufficient _ _ _ _ _ _ _ _ H). cbv zeta.
    assert (forall ex' v res r2 l2 l0,
              loop f ex' (moved_to v r) = (res, r2, l2) ->
              prepend_log l0 (res, r2, l2) = (Raise e, r', l) ->
              e = NoSuitablePrimersError /\
              last l = Some LRightLimit /\
              slice_end r' + step_distance (scheme r') > right_limit r' /\
              l = l0 ++ l2 /\ (ex' = false -> In LLeftLimit l2)) as Hrec.
    { intros ex' v res r2 l2 l0 E [= -> -> <-].
      destruct (IH _ _ _ _ _ E) as (-> & Hl & Hs & Hin).
      repeat split; auto. rewrite last_app, Hl. reflexivity. }
    destruct ex.
    + destruct (slice_end r + step_distance (scheme r) >? right_limit r) eqn:E.
      * intros [= <- <- <-]. repeat split; [lia|discriminate].
      * destruct (loop f true _) as [[res r2] l2] eqn:E2. intros Hp.
        destruct (Hrec _ _ _ _ _ _ E2 Hp) as (? & ? & ? & _ & _).
        repeat split; auto. discriminate.
    + destruct (slice_start r - step_distance (scheme r) <? left_limit r).
      * destruct (loop f true _) as [[res r2] l2] eqn:E2. intros Hp.
        destruct (Hrec _ _ _ _ _ _ E2 Hp) as (? & ? & ? & -> & _).
        repeat split; auto. intros _. cbn. auto.
      * destruct (loop f false _) as [[res r2] l2] eqn:E2. intros Hp.
        destruct (Hrec _ _ _ _ _ _ E2 Hp) as (? & ? & ? & -> & Hin).
        repeat split; auto. intros _. apply in_or_app. right. auto.
  - rewrite (loop_success _ _ _ _ _ _ _ _ _ H). discriminate.
Qed.

(** [find_primers] raises only the terminal error, and only after both
    directions are exhausted: the left limit was hit earlier in the run,
    the last thing logged is the right limit being hit, and the window is
    left where one more right step would cross the right limit. *)
Theorem find_primers_failure_state (fuel : nat) (r r' : Region) (e : exn) (l : Log) :
  find fuel r = (Raise e, r', l) ->
  e = NoSuitablePrimersError /\
  In LLeftLimit l /\
  last l = Some LRightLimit /\
  slice_end r' + step_distance (scheme r') > right_limit r' /\
  same_frame r r'.
Proof.
  intros Hrun. unfold find_primers in Hrun.
  destruct (loop_failure _ _ _ _ _ _ Hrun) as (He & Hl & Hs & Hin).
  destruct (loop_outcome _ _ _ _ _ _ _ _ _ _ Hrun) as [_ Hf]. auto 6.
Qed.

(** Every single-slice attempt of the loop is made on a slice within the
    limits. *)
Lemma loop_findings_within (fuel : nat) : forall (ex : bool) (r r' : Region) res (l : Log),
  0 <= step_distance (scheme r) ->
  in_bounds r ->
  loop fuel ex r = (res, r', l) ->
  Forall (finding_within r) l.
Proof.
  induction fuel as [|f IH]; intros ex r r' res l Hd Hb.
  - rewrite loop_O. intros [= _ _ <-]. constructor.
  - assert (finding_within r (LFinding (slice_start r) (slice_end r))) as Hhere.
    { destruct Hb as (H1 & H2 & _). unfold slice_end in *. cbn. lia. }
    destruct (attempt_spec design_primers reverse_complement align combined_penalty r)
      as (lefts & rights & _ & [[_ H] | [_ (top & rest & _ & H)]]).
    + rewrite (loop_insufficient _ _ _ _ _ _ _ _ H). cbv zeta.
      assert (forall ex' v res2 r2 l2 m,
                in_bounds (moved_to v r) ->
                is_finding m = false ->
                loop f ex' (moved_to v r) = (res2, r2, l2) ->
                prepend_log ([LFinding (slice_start r) (slice_end r)] ++ [m])
                  (res2, r2, l2) = (res, r', l) ->
                Forall (finding_within r) l) as Hrec.
      { intros ex' v res2 r2 l2 m Hb' Hm E [= _ _ <-].
        constructor; [exact Hhere|]. constructor; [destruct m; try exact I; discriminate|].
        exact (IH ex' (moved_to v r) r2 res2 l2 Hd Hb' E). }
      destruct Hb as (H1 & H2 & H3 & H4). unfold slice_end in *.
      destruct ex.
      * destruct (slice_start r + amplicon_size_max (scheme r)
                  + step_distance (scheme r) >? right_limit r) eqn:E.
        -- intros [= _ _ <-]. constructor; [exact Hhere|].
           constructor; [exact I|constructor].
        -- destruct (loop f true _) as [[res2 r2] l2] eqn:E2.
           eapply Hrec; [|reflexivity|exact E2].
           unfold in_bounds, slice_end. cbn. lia.
      * destruct (Z.ltb_spec (slice_start r - step_distance (scheme r))
                    (left_limit r)).
        -- destruct (loop f true _) as [[res2 r2] l2] eqn:E2.
           eapply Hrec; [|reflexivity|exact E2].
           unfold in_bounds, slice_end. cbn. lia.
        -- destruct (loop f false _) as [[res2 r2] l2] eqn:E2.
           eapply Hrec; [|reflexivity|exact E2].
           unfold in_bounds, slice_end. cbn. lia.
    + rewrite (loop_success _ _ _ _ _ _ _ _ _ H). intros [= _ _ <-].
      constructor; [exact Hhere|].
      eapply Forall_impl; [apply picked_log_quiet|].
      intros m [Hm _]. destruct m; try exact I; discriminate.
Qed.

(** For a region within its bounds and a step distance that is not
    negative, every slice that [find_primers] searches lies between the
    limits of the window and spans [amplicon_size_max] positions. *)
Theorem searches_stay_within_limits
    (fuel : nat) (r r' : Region) (res : result unit) (l : Log) :
  0 <= step_distance (scheme r) ->
  in_bounds r ->
  find fuel r = (res, r', l) ->
  forall s e, In (LFinding s e) l ->
    left_limit r <= s /\ e = s + amplicon_size_max (scheme r) /\
    e <= right_limit r.
Proof.
  intros Hd Hb Hrun s e Hin. unfold find_primers in Hrun.
  pose proof (loop_findings_within _ _ _ _ _ _ Hd Hb Hrun) as HF.
  rewrite Forall_forall in HF. apply list_elem_of_In, HF in Hin. exact Hin.
Qed.

End RetryFacts.

(** ** The regions of a scheme *)

Section SchemeFacts.

Variable design_primers : Seq -> Z -> P3Global -> bool -> list Primer.
Variable reverse_complement : Seq -> Seq.
Variable align : Primer -> list Seq -> aligned.
Variable combined_penalty : CandidatePrimerPair -> Q.
Variable self : MultiplexScheme.

Abbreviation run_of :=
  (design_scheme design_primers reverse_complement align combined_penalty self).
Abbreviation pass_of :=
  (design_pass design_primers reverse_complement align combined_penalty self).
Abbreviation after_passes :=
  (passes design_primers reverse_complement align combined_penalty self).
Abbreviation loop_from :=
  (design_loop design_primers reverse_complement align combined_penalty self).
Abbreviation find :=
  (find_primers design_primers reverse_complement align combined_penalty).
Abbreviation attempt :=
  (_find_primers_for_slice design_primers reverse_complement align combined_penalty).

(** A property that every region satisfies once the constructor and
    [find_primers] have succeeded on it holds of all regions of the loop. *)
Lemma passes_regions (inner : nat) (P : Region -> Prop) :
  (forall n ll ss region l0 region' l1,
      Region_init n self ll ss None = (Ok region, l0) ->
      find inner region = (Ok tt, region', l1) ->
      P region') ->
  forall k st, after_passes inner k = Some st -> Forall P (regions st).
Proof.
  intros HP. induction k as [|k IH]; intros st'.
  - intros [= <-]. constructor.
  - intros H. apply passes_S in H as (st & calls & l & Hk & _ & Hp).
    apply design_pass_appended in Hp
      as (ll & ss & il & region & l0 & region' & l1 & tp &
          _ & Hi & Hrun & _ & _ & -> & _).
    cbn [regions]. apply Forall_app. split; [apply IH; exact Hk|].
    constructor; [|constructor]. eapply HP; eauto.
Qed.

Lemma find_success_in_bounds (inner : nat) (region region' : Region) (l : Log) :
  find inner region = (Ok tt, region', l) ->
  0 <= step_distance (scheme region) ->
  in_bounds region ->
  in_bounds region'.
Proof.
  intros Hrun Hd Hb. unfold find_primers in Hrun.
  destruct (loop_success_at _ _ _ _ _ _ _ _ _ Hrun) as (rc & l' & Ha & _ & Hin).
  specialize (Hin Hd Hb).
  destruct (attempt_spec design_primers reverse_complement align combined_penalty rc)
    as (lefts & rights & _ & [[_ H] | [_ (top & rest & _ & H)]]);
    rewrite H in Ha; [discriminate|].
  injection Ha as <- _. exact Hin.
Qed.

Lemma Window_init_in_bounds (s : MultiplexScheme) (ll ss : Z) (rl : option Z)
    (w : Window) (l : Log) :
  Window_init s ll ss rl = (Ok w, l) -> in_bounds w.
Proof.
  intros H. apply Window_init_ok in H as (Hsch & Hll & Hs & Hi & _ & Hl & Hr).
  unfold in_bounds, slice_end in *. lia.
Qed.

Lemma Region_init_in_bounds (n ll ss : Z) (region : Region) (l : Log) :
  Region_init n self ll ss None = (Ok region, l) ->
  in_bounds region /\ scheme region = self /\ right_limit region = ref_len self /\
  region_num region = n /\ pool region = (if n mod 2 =? 1 then 1 else 2) /\
  left_limit region = ll /\ slice_start region = ss.
Proof.
  unfold Region_init.
  destruct (Window_init self ll ss None) as [[w| |] l0] eqn:E; try discriminate.
  intros [= <- _]. cbn.
  pose proof (Window_init_ok _ _ _ _ _ _ E) as (Hs & Hl & Hss & Hi & Hr & _).
  split; [|auto 10].
  exact (Window_init_in_bounds _ _ _ _ _ _ E).
Qed.

(** In a scheme that [design_scheme] returned, for a step distance that is
    not negative, the window of every region lies within its limits, and
    its right limit is the length of the primary reference. *)
Theorem scheme_regions_in_bounds (fuel : nat) :
  0 <= step_distance self ->
  outcome (run_of fuel) = Ok tt ->
  forall r, In r (scheme_regions (run_of fuel)) ->
    scheme r = self /\ right_limit r = ref_len self /\
    left_limit r <= slice_start r /\ slice_end r <= ref_len self.
Proof.
  intros Hd Hok r Hin.
  destruct (design_scheme_returns _ _ _ _ _ _ Hok) as (k & st & Hk & Hrs).
  rewrite Hrs in Hin.
  pose proof (passes_regions fuel
                (fun r => scheme r = self /\ right_limit r = ref_len self /\
                          in_bounds r)) as HF.
  lapply HF.
  - intros H. specialize (H k st Hk). rewrite Forall_forall in H.
    apply list_elem_of_In, H in Hin as (Hs & Hr & Hb & Hb' & _).
    rewrite <- Hr. auto.
  - intros n ll ss region l0 region' l1 Hi Hrun.
    apply Region_init_in_bounds in Hi as (Hb & Hs & Hr & _).
    unfold find_primers in Hrun.
    destruct (loop_outcome _ _ _ _ _ _ _ _ _ _ Hrun)
      as [_ (Hfs & _ & Hfr & _)].
    split; [congruence|]. split; [congruence|].
    eapply find_success_in_bounds; eauto. rewrite Hs. exact Hd.
Qed.

(** In a scheme that [design_scheme] returned the regions are numbered from
    1 in their order, a region is in pool 1 when its number is odd and in
    pool 2 otherwise, and neighbouring regions are in different pools. *)
Theorem scheme_pools_alternate (fuel : nat) :
  outcome (run_of fuel) = Ok tt ->
  (forall (i : nat) (r : Region), scheme_regions (run_of fuel) !! i = Some r ->
     region_num r = Z.of_nat i + 1 /\
     pool r = (if region_num r mod 2 =? 1 then 1 else 2)) /\
  (forall (i : nat) (r1 r2 : Region),
     scheme_regions (run_of fuel) !! i = Some r1 ->
     scheme_regions (run_of fuel) !! S i = Some r2 ->
     pool r1 <> pool r2).
Proof.
  intros Hok.
  destruct (design_scheme_returns _ _ _ _ _ _ Hok) as (k & st & Hk & Hrs).
  rewrite Hrs.
  destruct (passes_well_formed _ _ _ _ _ _ _ _ Hk) as [(_ & Hp & _) _].
  assert (Forall (fun r : Region =>
                    pool r = (if region_num r mod 2 =? 1 then 1 else 2))
            (regions st)) as HF.
  { apply (passes_regions fuel _) with (k := k); [|exact Hk].
    intros n ll ss region l0 region' l1 Hi Hrun.
    apply Region_init_in_bounds in Hi as (_ & _ & _ & Hn & Hpool & _).
    unfold find_primers in Hrun.
    destruct (loop_outcome _ _ _ _ _ _ _ _ _ _ Hrun)
      as [_ (_ & _ & _ & _ & Hfn & Hfp)].
    rewrite Hfn, Hfp, Hn. exact Hpool. }
  rewrite Forall_forall in HF.
  assert (forall (i : nat) (r : Region), regions st !! i = Some r ->
            region_num r = Z.of_nat i + 1 /\
            pool r = (if region_num r mod 2 =? 1 then 1 else 2)) as Hall.
  { intros i r Hi. split; [apply (Hp i r Hi)|].
    apply HF, list_elem_of_lookup. eauto. }
  split; [exact Hall|].
  intros i r1 r2 H1 H2.
  destruct (Hall _ _ H1) as [Hn1 ->]. destruct (Hall _ _ H2) as [Hn2 ->].
  rewrite Hn1, Hn2.
  destruct (Z.eqb_spec ((Z.of_nat i + 1) mod 2) 1);
    destruct (Z.eqb_spec ((Z.of_nat (S i) + 1) mod 2) 1);
    try discriminate; exfalso; Z.div_mod_to_equations; lia.
Qed.

Lemma progress_of_app (rs1 rs2 : list Region) :
  progress_of self (rs1 ++ rs2) = progress_of self rs1 ++ progress_of self rs2.
Proof. unfold progress_of. apply flat_map_app. Qed.

(** The calls made by the loop are those for the regions it appends. *)
Lemma design_loop_calls (inner f : nat) : forall st res c l,
  loop_from inner f st = (res, c, l) ->
  exists new,
    c = (if progress_func self then progress_of self new else []) /\
    match res with
    | Ok rs => rs = regions st ++ new
    | _ => True
    end.
Proof.
  induction f as [|f IH]; intros st res c l.
  - cbn. destruct (is_last st); intros [= <- <- _]; exists [];
      (split; [destruct (progress_func self); reflexivity|]);
      rewrite ?app_nil_r; auto.
  - destruct (is_last st) eqn:El.
    + cbn. rewrite El. intros [= <- <- _]. exists [].
      split; [destruct (progress_func self); reflexivity|].
      rewrite app_nil_r. reflexivity.
    + rewrite (design_loop_S _ _ _ _ _ _ _ _ El).
      destruct (pass_of inner st) as [[st2 calls| |e|] l2] eqn:Ep.
      * apply design_pass_appended in Ep
          as (ll & ss & il & region & l0 & region' & l1 & tp &
              _ & _ & _ & _ & Htp & -> & ->).
        destruct (loop_from inner f _) as [[res2 c2] l3] eqn:E2.
        intros [= <- <- _].
        destruct (IH _ _ _ _ E2) as (new & -> & Hres).
        exists (region' :: new). split.
        -- destruct (progress_func self); [|reflexivity].
           unfold progress_of. cbn [flat_map]. rewrite Htp. reflexivity.
        -- destruct res2; [|exact I..]. rewrite Hres. cbn [regions].
           rewrite <- app_assoc. reflexivity.
      * intros [= <- <- _]. exists [].
        split; [destruct (progress_func self); reflexivity|].
        rewrite app_nil_r. reflexivity.
      * intros [= <- <- _]. exists [].
        split; [destruct (progress_func self); reflexivity|exact I].
      * intros [= <- <- _]. exists [].
        split; [destruct (progress_func self); reflexivity|exact I].
Qed.

(** When [design_scheme] returns, a progress callback has received one call
    per region of the scheme, in order, with the start of the right primer
    of the region, and then the completion call; without a callback no call
    is made. *)
Theorem progress_calls_follow_regions (fuel : nat) :
  outcome (run_of fuel) = Ok tt ->
  progress_calls (run_of fuel) =
    if progress_func self
    then progress_of self (scheme_regions (run_of fuel))
         ++ [(ref_len self, ref_len self)]
    else [].
Proof.
  unfold design_scheme.
  destruct (loop_from fuel fuel initial_loop) as [[res c] l] eqn:E.
  destruct (design_loop_calls _ _ _ _ _ _ E) as (new & -> & Hres).
  destruct res as [rs| |]; cbn; [|discriminate..].
  intros _. rewrite Hres. cbn. destruct (progress_func self); reflexivity.
Qed.

(** A call of [design_scheme] that returns leaves at least one region: a
    failure on the first region is raised, never swallowed. *)
Theorem returned_scheme_not_empty (fuel : nat) :
  outcome (design_scheme design_primers reverse_complement align
             combined_penalty self fuel) = Ok tt ->
  scheme_regions (design_scheme design_primers reverse_complement align
                    combined_penalty self fuel) <> [].
Proof.
  unfold design_scheme.
  destruct (loop_from fuel fuel initial_loop) as [[res c] l] eqn:E.
  destruct res as [rs|e|]; cbn; [|discriminate..]. intros _.
  destruct fuel as [|f] in E at 2; [discriminate|].
  rewrite (design_loop_S _ _ _ _ _ _ f initial_loop eq_refl) in E.
  destruct (pass_of fuel initial_loop) as [[st2 calls| |e|] l2] eqn:Ep;
    [| |discriminate..].
  - destruct (loop_from fuel f st2) as [[res2 c2] l3] eqn:E2.
    injection E as -> _ _.
    destruct (design_loop_calls _ _ _ _ _ _ E2) as (new & _ & Hres).
    cbn in Hres. rewrite Hres.
    apply design_pass_appended in Ep
      as (? & ? & ? & ? & ? & region' & ? & ? & _ & _ & _ & _ & _ & -> & _).
    cbn. discriminate.
  - apply design_pass_broke in Ep as [_ Hne]. cbn in Hne. lia.
Qed.

(** The first pass constructs region 1 at left limit 0 and slice start 0.
    On a primary reference shorter than [amplicon_size_max] the
    construction fails: [design_scheme] raises the bounds error before any
    primer is designed and without a progress call.  Otherwise the first
    search is on the slice from 0 to [amplicon_size_max]. *)
Theorem first_region_window (fuel : nat) :
  (1 <= fuel)%nat ->
  (ref_len self < amplicon_size_max self ->
     outcome (run_of fuel) = Raise SliceOutOfBoundsError /\
     run_log (run_of fuel) = [LWindow 0 0 (ref_len self)] /\
     progress_calls (run_of fuel) = [] /\
     scheme_regions (run_of fuel) = []) /\
  (amplicon_size_max self <= ref_len self ->
     exists rest,
       run_log (run_of fuel) =
         LWindow 0 0 (ref_len self) :: LRegion 1 1
         :: LFinding 0 (amplicon_size_max self) :: rest).
Proof.
  intros Hfuel. destruct fuel as [|f]; [lia|].
  unfold design_scheme.
  rewrite (design_loop_S _ _ _ _ _ _ f initial_loop eq_refl).
  unfold design_pass.
  rewrite (region_args_first self initial_loop eq_refl eq_refl).
  unfold Region_init, Window_init, slice_end. cbn [is_last initial_loop
    cur_region_num scheme slice_start right_limit right_limit_or_len].
  change (0 <? 0) with false. cbn [orb Z.add].
  split.
  - intros Hshort.
    destruct (Z.gtb_spec (0 + amplicon_size_max self) (ref_len self)) as [_|?];
      [|lia].
    cbn. auto.
  - intros Hlong.
    destruct (Z.gtb_spec (0 + amplicon_size_max self) (ref_len self)) as [?|_];
      [lia|].
    match goal with
    | |- context [find_primers _ _ _ _ (S f) ?r] =>
        destruct (find_primers design_primers reverse_complement align
                    combined_penalty (S f) r) as [[res r'] l1] eqn:E
    end.
    unfold find_primers in E. apply loop_log_head in E as (l' & ->).
    unfold slice_end. cbn [slice_start scheme window].
    destruct res as [[]|e|].
    + destruct (progress_func self).
      * destruct (top_pair r'); cbn.
        -- destruct (loop_from (S f) f _) as [[[rs|e'|] c'] l3]; cbn; eauto.
        -- eauto.
      * cbn. destruct (loop_from (S f) f _) as [[[rs|e'|] c'] l3]; cbn; eauto.
    + destruct e; cbn; eauto.
    + cbn. eauto.
Qed.

Lemma pair_at_app_l (rs rs' : list Region) (i : nat) :
  (i < length rs)%nat -> pair_at (rs ++ rs') i = pair_at rs i.
Proof. intros H. unfold pair_at. rewrite lookup_app_l by exact H. reflexivity. Qed.

Lemma pair_at_middle (rs rs' : list Region) (r : Region) :
  pair_at (rs ++ r :: rs') (length rs) = top_pair r.
Proof. unfold pair_at. rewrite list_lookup_middle by reflexivity. reflexivity. Qed.

(** How the limits of the regions and the flag [is_last] derive from the
    pairs selected so far. *)
Lemma passes_limits (inner k : nat) : forall st,
  after_passes inner k = Some st ->
  (forall r : Region, regions st !! 0%nat = Some r ->
     left_limit r = 0 /\ _initial_slice_start r = 0) /\
  (forall (i : nat) (r1 : Region) p0,
     regions st !! S i = Some r1 ->
     pair_at (regions st) i = Some p0 ->
     left_limit r1 =
       left_limit_after p0
         (match i with O => None | S j => pair_at (regions st) j end) /\
     _initial_slice_start r1 = slice_start_after self p0 (left_limit r1)) /\
  is_last st =
    match k with
    | S (S j) =>
        match pair_at (regions st) j with
        | Some p => few_bases_left self p
        | None => false
        end
    | _ => false
    end.
Proof.
  induction k as [|k IH]; intros st'.
  - intros [= <-]. repeat split; discriminate.
  - intros H. apply passes_S in H as (st & calls & l & Hk & _ & Hp).
    destruct (IH st Hk) as (IH1 & IH2 & IH3).
    destruct (passes_well_formed _ _ _ _ _ _ _ _ Hk) as [(Hc & Hwp & _) Hn].
    assert (length (regions st) = k) as Hlen by lia.
    apply design_pass_appended in Hp
      as (ll & ss & il & region & l0 & region' & l1 & tp &
          Ha & Hi & _ & Hf & _ & -> & _).
    destruct (Region_init_cases (cur_region_num st + 1) self ll ss None)
      as [(l0' & Hi') | (region0 & l0' & Hi' & _ & _ & Hll & _ & Hinit)];
      rewrite Hi in Hi'; [discriminate|].
    injection Hi' as <- <-.
    destruct Hf as (_ & Hfl & _ & Hfi & _).
    rewrite <- Hfl in Hll. rewrite <- Hfi in Hinit. clear Hfl Hfi.
    cbn [regions is_last].
    destruct (snoc_cases (regions st)) as [Hr | (rs0 & r1' & Hr)].
    + (* the first region *)
      rewrite Hr in *. cbn in Hlen. subst k.
      rewrite (region_args_first self st Hr) in Ha by (rewrite Hc; reflexivity).
      injection Ha as <- <- <-. cbn [app].
      split; [|split].
      * intros r [= <-]. auto.
      * intros i r1 p0 H; discriminate.
      * exact IH3.
    + destruct (Hwp (length rs0) r1') as (_ & p1 & Hp1).
      { rewrite Hr. apply list_lookup_middle. reflexivity. }
      assert (length rs0 = Nat.pred k) as Hlen0.
      { rewrite Hr, length_app in Hlen. cbn in Hlen. lia. }
      assert (k = S (length rs0)) as Hk' by
        (rewrite Hr, length_app in Hlen; cbn in Hlen; lia).
      set (pip := match length rs0 with
                  | O => None
                  | S j => pair_at (regions st) j
                  end).
      assert (region_args self st =
                Ok (left_limit_after p1 pip,
                    slice_start_after self p1 (left_limit_after p1 pip),
                    few_bases_left self p1)) as Hargs.
      { apply (region_args_next self st rs0 r1' p1 pip Hr Hc Hp1).
        destruct (snoc_cases rs0) as [-> | (rs00 & r0 & ->)]; [left; auto|].
        right. destruct (Hwp (length rs00) r0) as (_ & p0 & Hp0).
        { rewrite Hr, <- app_assoc. apply list_lookup_middle. reflexivity. }
        exists rs00, r0, p0. split; [reflexivity|]. split; [exact Hp0|].
        unfold pip. rewrite length_app. cbn [length].
        replace (length rs00 + 1)%nat with (S (length rs00)) by lia.
        rewrite Hr, <- app_assoc. cbn [app]. rewrite pair_at_middle. exact Hp0. }
      rewrite Ha in Hargs. injection Hargs as -> -> ->.
      split; [|split].
      * intros r H0. apply IH1. rewrite lookup_app_l in H0; [exact H0|lia].
      * intros i r1 p0 H1 H0.
        apply lookup_app_Some in H1 as [H1 | [Hge H1]].
        -- pose proof (lookup_lt_Some _ _ _ H1) as Hlt.
           rewrite pair_at_app_l in H0 by lia.
           destruct (IH2 i r1 p0 H1 H0) as [E1 E2]. split; [|exact E2].
           rewrite E1. destruct i as [|j]; [reflexivity|].
           rewrite pair_at_app_l by lia. reflexivity.
        -- apply list_lookup_singleton_Some in H1 as [H1 <-].
           assert (i = length rs0) as -> by lia.
           rewrite Hr, <- app_assoc in H0. cbn [app] in H0.
           rewrite pair_at_middle, Hp1 in H0. injection H0 as <-.
           rewrite Hll, Hinit. split; [|reflexivity]. unfold pip.
           destruct (length rs0) as [|j] eqn:Ej; [reflexivity|].
           rewrite pair_at_app_l; [reflexivity|lia].
      * rewrite Hk'. rewrite Hr at 1. rewrite <- app_assoc. cbn [app].
        rewrite pair_at_middle, Hp1. reflexivity.
Qed.

(** The regions of the states that the passes reach extend one another. *)
Lemma passes_prefix (inner k : nat) : forall st,
  after_passes inner k = Some st ->
  forall j, (j <= k)%nat ->
  exists stj new,
    after_passes inner j = Some stj /\ regions st = regions stj ++ new.
Proof.
  induction k as [|k IH]; intros st' Hk' j Hj.
  - assert (j = 0%nat) as -> by lia. exists st', []. rewrite app_nil_r. auto.
  - destruct (decide (j = S k)) as [->|Hne].
    { exists st', []. rewrite app_nil_r. auto. }
    pose proof Hk' as H. apply passes_S in H as (st & calls & l & Hk & _ & Hp).
    destruct (IH st Hk j) as (stj & new & Hpj & Hnew); [lia|].
    apply design_pass_appended in Hp
      as (? & ? & ? & ? & ? & region' & ? & ? & _ & _ & _ & _ & _ & -> & _).
    exists stj, (new ++ [region']). split; [exact Hpj|].
    cbn [regions]. rewrite Hnew, app_assoc. reflexivity.
Qed.

(** In a scheme that [design_scheme] returned, the first region was
    constructed at left limit 0 and slice start 0; the left limit of the
    second is one past the end of the left primer of the first; and the
    left limit of every later region lies to the right of the start of the
    left primer of the region before it, provided that primer does not end
    before it starts. *)
Theorem regions_make_progress (fuel : nat) :
  outcome (run_of fuel) = Ok tt ->
  (forall r : Region, scheme_regions (run_of fuel) !! 0%nat = Some r ->
     left_limit r = 0 /\ _initial_slice_start r = 0) /\
  (forall (r0 r1 : Region) p0,
     scheme_regions (run_of fuel) !! 0%nat = Some r0 ->
     scheme_regions (run_of fuel) !! 1%nat = Some r1 ->
     top_pair r0 = Some p0 ->
     left_limit r1 = end_ (left p0) + 1) /\
  (forall (i : nat) (r0 r1 : Region) p0,
     scheme_regions (run_of fuel) !! i = Some r0 ->
     scheme_regions (run_of fuel) !! S i = Some r1 ->
     top_pair r0 = Some p0 ->
     start (left p0) <= end_ (left p0) ->
     start (left p0) < left_limit r1).
Proof.
  intros Hok.
  destruct (design_scheme_returns _ _ _ _ _ _ Hok) as (k & st & Hk & Hrs).
  rewrite Hrs.
  destruct (passes_limits _ _ _ Hk) as (H1 & H2 & _).
  split; [exact H1|]. split.
  - intros r0 r1 p0 Hr0 Hr1 Hp0.
    destruct (H2 0%nat r1 p0 Hr1) as [E _]; [|exact E].
    unfold pair_at. rewrite Hr0. exact Hp0.
  - intros i r0 r1 p0 Hr0 Hr1 Hp0 Hle.
    destruct (H2 i r1 p0 Hr1) as [E _].
    { unfold pair_at. rewrite Hr0. exact Hp0. }
    rewrite E. unfold left_limit_after.
    destruct (match i with O => None | S j => pair_at (regions st) j end)
      as [q|]; [|lia].
    destruct (Z.gtb_spec (start (left p0)) (start (right q))); lia.
Qed.

(** In a scheme that [design_scheme] returned, a region is followed by two
    more only if more than [amplicon_size_max] bases were left from the
    start of its right primer: otherwise the region after it is the last. *)
Theorem later_regions_need_bases_left (fuel : nat) :
  outcome (run_of fuel) = Ok tt ->
  forall (i : nat) (r0 r2 : Region) p0,
    scheme_regions (run_of fuel) !! i = Some r0 ->
    scheme_regions (run_of fuel) !! S (S i) = Some r2 ->
    top_pair r0 = Some p0 ->
    ref_len self - start (right p0) > amplicon_size_max self.
Proof.
  intros Hok i r0 r2 p0 Hr0 Hr2 Hp0.
  destruct (design_scheme_returns _ _ _ _ _ _ Hok) as (k & st & Hk & Hrs).
  rewrite Hrs in *.
  destruct (passes_well_formed _ _ _ _ _ _ _ _ Hk) as [(Hc & _) Hn].
  pose proof (lookup_lt_Some _ _ _ Hr2) as Hlt.
  assert (S (S (S i)) <= k)%nat as Hle by lia.
  destruct (passes_prefix _ _ _ Hk (S (S (S i))) Hle) as (st3 & new3 & Hk3 & _).
  apply passes_S in Hk3 as (st2 & calls & l & Hk2 & El & _).
  destruct (passes_limits _ _ _ Hk2) as (_ & _ & Hlast).
  destruct (passes_prefix _ _ _ Hk (S (S i))) as (st2' & new2 & Hk2' & Hnew);
    [lia|].
  rewrite Hk2 in Hk2'. injection Hk2' as <-.
  destruct (passes_well_formed _ _ _ _ _ _ _ _ Hk2) as [(Hc2 & _) Hn2].
  assert (pair_at (regions st2) i = Some p0) as Hpair.
  { rewrite <- (pair_at_app_l (regions st2) new2) by lia.
    rewrite <- Hnew. unfold pair_at. rewrite Hr0. exact Hp0. }
  rewrite Hpair, El in Hlast. unfold few_bases_left in Hlast.
  symmetry in Hlast. apply Z.leb_gt in Hlast. lia.
Qed.

Lemma py_remove_Forall (P : Primer -> Prop) (idx : nat) (l r : list Primer) :
  Forall P l -> py_remove idx l = Some r -> Forall P r.
Proof.
  intros Hl. unfold py_remove. destruct (l !! idx); [|discriminate].
  intros [= <-]. apply Forall_delete. exact Hl.
Qed.

(** What holds of every candidate handed to the scan, and is kept by the
    aligner, holds of every candidate the scan leaves. *)
Lemma filter_from_Forall (P : Primer -> Prop) (refs : list Seq) (n : nat) :
  (forall p, P p -> P (aligned_primer (align p refs))) ->
  forall (idx : nat) (d d' : list Primer),
    Forall P d -> filter_from align refs n idx d = Ok d' -> Forall P d'.
Proof.
  intros Hal. induction n as [|n IH]; intros idx d d' Hd; simpl.
  - intros [= <-]. exact Hd.
  - destruct (d !! idx) as [p|] eqn:E; [|intros [= <-]; exact Hd].
    assert (P p) as Hp by (eapply Forall_lookup_1; eauto).
    specialize (Hal p Hp).
    destruct (align p refs) as [p'|p']; cbn in Hal;
      pose proof (Forall_insert P d idx p' Hd Hal) as Hins.
    + destruct (Qgtb _ _).
      * destruct (py_remove idx _) as [r|] eqn:Er; [|discriminate].
        apply IH. eapply py_remove_Forall; eauto.
      * apply IH. exact Hins.
    + destruct (py_remove idx _) as [r|] eqn:Er; [|discriminate].
      apply IH. eapply py_remove_Forall; eauto.
Qed.

Section Placement.

Hypothesis design_places :
  forall seq offset p,
    In p (design_primers seq offset (p3_global self) false) -> placed offset p.
Hypothesis align_keeps_place :
  forall offset p,
    placed offset p -> placed offset (aligned_primer (align p (references self))).

(** The left primer of the pair that [find_primers] selects lies in the
    final slice. *)
Lemma find_success_placed (inner : nat) (region region' : Region) (l : Log) :
  scheme region = self ->
  find inner region = (Ok tt, region', l) ->
  exists p, top_pair region' = Some p /\ placed (slice_start region') (left p).
Proof.
  intros Hs Hrun. unfold find_primers in Hrun.
  destruct (loop_success_at _ _ _ _ _ _ _ _ _ Hrun)
    as (rc & l' & Ha & (Hsc & _) & _).
  destruct (attempt_spec design_primers reverse_complement align combined_penalty rc)
    as (lefts & rights & Hfc & [[_ H] | [_ (top & rest & Hsort & H)]]);
    rewrite H in Ha; [discriminate|].
  injection Ha as <- _. exists top. split; [reflexivity|]. cbn.
  apply filter_candidates_parts in Hfc as [Hl _].
  assert (Forall (placed (slice_start rc)) lefts) as Hplaced.
  { unfold filter_direction in Hl.
    eapply (filter_from_Forall (placed (slice_start rc))); [| |exact Hl].
    - rewrite Hsc, Hs. apply align_keeps_place.
    - apply Forall_forall. intros p Hin. apply list_elem_of_In in Hin.
      cbn in Hin. rewrite Hsc, Hs in Hin. eapply design_places; eauto. }
  destruct (sort_by_key_head _ _ _ _ Hsort) as (b & a & Hc & _).
  assert (In top (cross_product lefts rights)) as Hin.
  { rewrite Hc. apply in_or_app. right. left. reflexivity. }
  unfold cross_product in Hin. apply in_flat_map in Hin as (lp & Hlp & Hin).
  apply in_map_iff in Hin as (rp & <- & _). cbn.
  rewrite Forall_forall in Hplaced. apply Hplaced, list_elem_of_In. exact Hlp.
Qed.

(** Every region of the loop is within its bounds, and its left primer
    lies in its slice. *)
Lemma passes_placed (inner k : nat) (st : Loop) :
  0 <= step_distance self ->
  after_passes inner k = Some st ->
  Forall (fun r : Region =>
            in_bounds r /\ right_limit r = ref_len self /\ scheme r = self /\
            exists p, top_pair r = Some p /\ placed (slice_start r) (left p))
    (regions st).
Proof.
  intros Hd Hk. apply (passes_regions inner _) with (k := k); [|exact Hk].
  intros n ll ss region l0 region' l1 Hi Hrun.
  apply Region_init_in_bounds in Hi as (Hb & Hs & Hr & _).
  pose proof Hrun as Hrun'. unfold find_primers in Hrun'.
  destruct (loop_outcome _ _ _ _ _ _ _ _ _ _ Hrun') as [_ (Hfs & _ & Hfr & _)].
  split; [eapply find_success_in_bounds; eauto; rewrite Hs; exact Hd|].
  split; [congruence|]. split; [congruence|].
  eapply find_success_placed; eauto.
Qed.

Lemma left_limit_after_gt (p : CandidatePrimerPair)
    (pip : option CandidatePrimerPair) :
  start (left p) <= end_ (left p) -> start (left p) < left_limit_after p pip.
Proof.
  intros H. unfold left_limit_after. destruct pip as [q|]; [|lia].
  destruct (Z.gtb_spec (start (left p)) (start (right q))); lia.
Qed.

(** The left limits grow by at least one from region to region. *)
Lemma passes_left_limits_grow (inner k : nat) (st : Loop) :
  0 <= step_distance self ->
  after_passes inner k = Some st ->
  forall (i : nat) (r : Region),
    regions st !! i = Some r -> Z.of_nat i <= left_limit r.
Proof.
  intros Hd Hk.
  destruct (passes_limits _ _ _ Hk) as (H1 & H2 & _).
  pose proof (passes_placed _ _ _ Hd Hk) as HF. rewrite Forall_forall in HF.
  induction i as [|i IH]; intros r Hr.
  - destruct (H1 r Hr) as [-> _]. reflexivity.
  - destruct (lookup_lt_is_Some_2 (regions st) i) as (r0 & Hr0).
    { apply lookup_lt_Some in Hr. lia. }
    specialize (IH r0 Hr0).
    destruct (HF r0) as ((Hb & _) & _ & _ & p0 & Hp0 & Hpl & Hle).
    { apply list_elem_of_lookup. eauto. }
    destruct (H2 i r p0 Hr) as [E _].
    { unfold pair_at. rewrite Hr0. exact Hp0. }
    pose proof (left_limit_after_gt p0
                  (match i with O => None | S j => pair_at (regions st) j end) Hle).
    lia.
Qed.

(** Hence the loop appends at most one region per position a window can
    take. *)
Lemma passes_count_bound (inner k : nat) (st : Loop) :
  0 <= step_distance self ->
  after_passes inner k = Some st ->
  (k < design_fuel self)%nat.
Proof.
  intros Hd Hk. unfold design_fuel.
  destruct k as [|k]; [lia|].
  destruct (passes_well_formed _ _ _ _ _ _ _ _ Hk) as [(Hc & _) Hn].
  destruct (lookup_lt_is_Some_2 (regions st) k) as (r & Hr); [lia|].
  pose proof (passes_left_limits_grow _ _ _ Hd Hk k r Hr) as Hg.
  pose proof (passes_placed _ _ _ Hd Hk) as HF. rewrite Forall_forall in HF.
  destruct (HF r) as ((Hb1 & Hb2 & _) & Hrl & Hs & _).
  { apply list_elem_of_lookup. eauto. }
  unfold slice_end in Hb2. rewrite Hs, Hrl in Hb2. lia.
Qed.

(** The left limit computed for the next region is not negative. *)
Lemma next_left_limit_nonneg (inner k : nat) (st : Loop) (ll ss : Z) (il : bool) :
  0 <= step_distance self ->
  after_passes inner k = Some st ->
  region_args self st = Ok (ll, ss, il) ->
  0 <= ll.
Proof.
  intros Hd Hk Ha.
  destruct (passes_well_formed _ _ _ _ _ _ _ _ Hk) as [(Hc & Hwp & _) Hn].
  pose proof (passes_placed _ _ _ Hd Hk) as HF. rewrite Forall_forall in HF.
  destruct (snoc_cases (regions st)) as [Hr | (rs0 & r1 & Hr)].
  - rewrite (region_args_first self st Hr) in Ha by (rewrite Hc, Hr; reflexivity).
    injection Ha as <- _ _. reflexivity.
  - assert (regions st !! length rs0 = Some r1) as Hr1.
    { rewrite Hr. apply list_lookup_middle. reflexivity. }
    destruct (HF r1) as ((Hb & _) & _ & _ & p1 & Hp1 & Hpl & Hle).
    { apply list_elem_of_lookup. eauto. }
    pose proof (passes_left_limits_grow _ _ _ Hd Hk _ _ Hr1) as Hg.
    assert (exists pip, region_args self st =
              Ok (left_limit_after p1 pip,
                  slice_start_after self p1 (left_limit_after p1 pip),
                  few_bases_left self p1)) as (pip & Hargs).
    { destruct (snoc_cases rs0) as [-> | (rs00 & r0 & ->)].
      - exists None. apply (region_args_next self st [] r1 p1 None Hr Hc Hp1).
        left. auto.
      - destruct (Hwp (length rs00) r0) as (_ & p0 & Hp0).
        { rewrite Hr, <- app_assoc. apply list_lookup_middle. reflexivity. }
        exists (Some p0).
        apply (region_args_next self st (rs00 ++ [r0]) r1 p1 (Some p0) Hr Hc Hp1).
        right. eauto 6. }
    rewrite Ha in Hargs. injection Hargs as -> _ _.
    pose proof (left_limit_after_gt p1 pip Hle). lia.
Qed.

Lemma design_loop_ends (fuel f : nat) : forall (k : nat) (st : Loop),
  0 < step_distance self ->
  (design_fuel self <= fuel)%nat ->
  after_passes fuel k = Some st ->
  (design_fuel self <= k + f)%nat ->
  fst (fst (loop_from fuel f st)) <> OutOfFuel.
Proof.
  induction f as [|f IH]; intros k st Hd Hfuel Hk Hkf.
  - pose proof (passes_count_bound _ _ _ ltac:(lia) Hk). lia.
  - destruct (is_last st) eqn:El; [cbn; rewrite El; discriminate|].
    rewrite (design_loop_S _ _ _ _ _ _ _ _ El).
    destruct (pass_of fuel st) as [[st2 calls| |e|] l2] eqn:Ep;
      [|discriminate|discriminate|].
    + assert (after_passes fuel (S k) = Some st2) as Hk2.
      { cbn [passes]. rewrite Hk, El, Ep. reflexivity. }
      specialize (IH (S k) st2 Hd Hfuel Hk2 ltac:(lia)).
      destruct (loop_from fuel f st2) as [[res c] l3]. exact IH.
    + exfalso. revert Ep. unfold design_pass.
      destruct (passes_well_formed _ _ _ _ _ _ _ _ Hk) as [Hwf _].
      destruct (region_args_ok self st Hwf) as (ll & ss & il & Ha). rewrite Ha.
      pose proof (next_left_limit_nonneg _ _ _ _ _ _ ltac:(lia) Hk Ha) as Hll.
      destruct (Region_init (cur_region_num st + 1) self ll ss None)
        as [[region|e|] l0] eqn:Ei; [|discriminate|].
      * pose proof (Region_init_in_bounds _ _ _ _ _ Ei)
          as ((Hb1 & Hb2 & Hb3 & Hb4) & Hs & Hr & _ & _ & Hl & Hss).
        destruct (left_phase design_primers reverse_complement align
                    combined_penalty
                    (Z.to_nat (slice_start region - left_limit region) + 1)
                    region fuel)
          as (res & r' & l' & Hrun & Hterm & _).
        { rewrite Hs. exact Hd. }
        { lia. }
        { destruct (Region_init_cases (cur_region_num st + 1) self ll ss None)
            as [(l0' & Hi') | (region0 & l0' & Hi' & _ & _ & _ & _ & Hinit)];
            rewrite Ei in Hi'; [discriminate|].
          injection Hi' as <- <-.
          unfold right_room, design_fuel, slice_end in *.
          rewrite Hs in *. lia. }
        unfold find_primers. rewrite Hrun.
        destruct Hterm as [[-> (p & Hp)] | ->].
        -- rewrite Hp. destruct (progress_func self); discriminate.
        -- destruct (_ =? 1); discriminate.
      * unfold Region_init in Ei.
        destruct (Window_init _ _ _ _) as [[?| |] ?] eqn:Ew; try discriminate.
        unfold Window_init in Ew. destruct (_ || _); discriminate.
Qed.

(** When the design engine places every left candidate at or after the
    start of the slice it was given, with its end not before its start, and
    the aligner keeps the coordinates, then with a positive step distance
    [design_scheme] ends once the fuel reaches [design_fuel]: it returns or
    raises, and the scheme has fewer than [design_fuel] regions. *)
Theorem design_scheme_terminates (fuel : nat) :
  0 < step_distance self ->
  (design_fuel self <= fuel)%nat ->
  outcome (run_of fuel) <> OutOfFuel /\
  (length (scheme_regions (run_of fuel)) < design_fuel self)%nat.
Proof.
  intros Hd Hfuel. split.
  - pose proof (design_loop_ends fuel fuel 0 initial_loop Hd Hfuel eq_refl
                  ltac:(lia)) as H.
    unfold design_scheme.
    destruct (loop_from fuel fuel initial_loop) as [[[rs|e|] c] l];
      cbn in *; congruence.
  - destruct (outcome (run_of fuel)) as [[]|e|] eqn:Eo.
    + destruct (design_scheme_returns _ _ _ _ _ _ Eo) as (k & st & Hk & ->).
      destruct (passes_well_formed _ _ _ _ _ _ _ _ Hk) as [(Hc & _) Hn].
      pose proof (passes_count_bound _ _ _ ltac:(lia) Hk). lia.
    + destruct (design_scheme_raises _ _ _ _ _ _ _ Eo) as [-> _].
      unfold design_fuel. cbn. lia.
    + revert Eo. unfold design_scheme.
      destruct (loop_from fuel fuel initial_loop) as [[[rs|e|] c] l];
        cbn; try discriminate.
      intros _. unfold design_fuel. lia.
Qed.

End Placement.

End SchemeFacts.

(** ** The further properties at concrete inputs *)

Lemma design_one_places (seq : Seq) (offset : Z) (p3 : P3Global) (p : Primer) :
  In p (Fixture.design_one seq offset p3 false) -> placed offset p.
Proof.
  unfold Fixture.design_one. destruct (existsb Fixture.is_N seq); [intros []|].
  intros [<-|[]]. unfold placed. cbn. lia.
Qed.

Lemma align_all_keeps_place (refs : list Seq) (offset : Z) (p : Primer) :
  placed offset p -> placed offset (aligned_primer (Fixture.align_all p refs)).
Proof. intros H. exact H. Qed.

Lemma attempt_fails_only_on_scarce_candidates_witness :
  InsufficientPrimersError = InsufficientPrimersError /\
  snd (fst (Fixture.attempt_one Fixture.hopeless_region)) = Fixture.hopeless_region /\
  ((length (fst (designed_candidates Fixture.design_one Fixture.reverse_complement
                   Fixture.hopeless_region)) <= 1)%nat \/
   (length (snd (designed_candidates Fixture.design_one Fixture.reverse_complement
                   Fixture.hopeless_region)) <= 1)%nat).
Proof.
  apply (attempt_fails_only_on_scarce_candidates Fixture.design_one
           Fixture.reverse_complement Fixture.align_all Fixture.penalty_sum
           Fixture.hopeless_region
           (snd (fst (Fixture.attempt_one Fixture.hopeless_region)))
           InsufficientPrimersError
           (snd (Fixture.attempt_one Fixture.hopeless_region))).
  vm_compute. reflexivity.
Defined.

Lemma find_primers_success_state_witness :
  same_frame Fixture.stuck_region
    (snd (fst (Fixture.retry 20 Fixture.stuck_region))) /\
  exists lefts rights top rest cs,
    filter_candidates Fixture.align_all
      (references (scheme (snd (fst (Fixture.retry 20 Fixture.stuck_region)))))
      (designed_candidates Fixture.design_one Fixture.reverse_complement
         (snd (fst (Fixture.retry 20 Fixture.stuck_region))))
      = Ok (lefts, rights) /\
    lefts <> [] /\ rights <> [] /\
    candidate_pairs (snd (fst (Fixture.retry 20 Fixture.stuck_region)))
      = top :: rest /\
    top_pair (snd (fst (Fixture.retry 20 Fixture.stuck_region))) = Some top /\
    length cs = (length lefts * length rights)%nat /\
    (forall (i j : nat) li rj,
       lefts !! i = Some li -> rights !! j = Some rj ->
       cs !! (i * length rights + j)%nat = Some (mkPair li rj)) /\
    Permutation cs
      (candidate_pairs (snd (fst (Fixture.retry 20 Fixture.stuck_region)))) /\
    Permutation (cross_product lefts rights)
      (candidate_pairs (snd (fst (Fixture.retry 20 Fixture.stuck_region)))) /\
    Sorted (key_le Fixture.penalty_sum)
      (candidate_pairs (snd (fst (Fixture.retry 20 Fixture.stuck_region)))).
Proof.
  apply (find_primers_success_state Fixture.design_one
           Fixture.reverse_complement Fixture.align_all Fixture.penalty_sum
           20 Fixture.stuck_region
           (snd (fst (Fixture.retry 20 Fixture.stuck_region)))
           (snd (Fixture.retry 20 Fixture.stuck_region))).
  vm_compute. reflexivity.
Defined.

Lemma find_primers_failure_state_witness :
  NoSuitablePrimersError = NoSuitablePrimersError /\
  In LLeftLimit (snd (Fixture.retry 20 Fixture.hopeless_region)) /\
  last (snd (Fixture.retry 20 Fixture.hopeless_region)) = Some LRightLimit /\
  slice_end (snd (fst (Fixture.retry 20 Fixture.hopeless_region)))
    + step_distance (scheme (snd (fst (Fixture.retry 20 Fixture.hopeless_region))))
    > right_limit (snd (fst (Fixture.retry 20 Fixture.hopeless_region))) /\
  same_frame Fixture.hopeless_region
    (snd (fst (Fixture.retry 20 Fixture.hopeless_region))).
Proof.
  apply (find_primers_failure_state Fixture.design_one
           Fixture.reverse_complement Fixture.align_all Fixture.penalty_sum
           20 Fixture.hopeless_region
           (snd (fst (Fixture.retry 20 Fixture.hopeless_region)))
           NoSuitablePrimersError
           (snd (Fixture.retry 20 Fixture.hopeless_region))).
  vm_compute. reflexivity.
Defined.

Lemma searches_stay_within_limits_witness :
  left_limit Fixture.stuck_region <= 6 /\
  36 = 6 + amplicon_size_max (scheme Fixture.stuck_region) /\
  36 <= right_limit Fixture.stuck_region.
Proof.
  apply (searches_stay_within_limits Fixture.design_one
           Fixture.reverse_complement Fixture.align_all Fixture.penalty_sum
           20 Fixture.stuck_region
           (snd (fst (Fixture.retry 20 Fixture.stuck_region)))
           (fst (fst (Fixture.retry 20 Fixture.stuck_region)))
           (snd (Fixture.retry 20 Fixture.stuck_region))).
  - vm_compute. discriminate.
  - repeat split; vm_compute; discriminate.
  - vm_compute. reflexivity.
  - vm_compute. do 2 right. left. reflexivity.
Defined.

Lemma scheme_regions_in_bounds_witness :
  scheme (Fixture.region_of (Fixture.run (Fixture.bases "A" 100) 20) 2)
    = Fixture.full_scheme /\
  right_limit (Fixture.region_of (Fixture.run (Fixture.bases "A" 100) 20) 2)
    = ref_len Fixture.full_scheme /\
  left_limit (Fixture.region_of (Fixture.run (Fixture.bases "A" 100) 20) 2)
    <= slice_start (Fixture.region_of (Fixture.run (Fixture.bases "A" 100) 20) 2) /\
  slice_end (Fixture.region_of (Fixture.run (Fixture.bases "A" 100) 20) 2)
    <= ref_len Fixture.full_scheme.
Proof.
  unfold Fixture.run, Fixture.full_scheme.
  apply (scheme_regions_in_bounds Fixture.design_one
           Fixture.reverse_complement Fixture.align_all Fixture.penalty_sum
           (Fixture.scheme_of (Fixture.bases "A" 100)) 20).
  - vm_compute. discriminate.
  - vm_compute. reflexivity.
  - vm_compute. do 2 right. left. reflexivity.
Defined.

Lemma scheme_pools_alternate_witness :
  pool (Fixture.region_of (Fixture.run (Fixture.bases "A" 100) 20) 2)
    <> pool (Fixture.region_of (Fixture.run (Fixture.bases "A" 100) 20) 3).
Proof.
  unfold Fixture.run.
  apply (proj2 (scheme_pools_alternate Fixture.design_one
                  Fixture.reverse_complement Fixture.align_all Fixture.penalty_sum
                  (Fixture.scheme_of (Fixture.bases "A" 100)) 20
                  ltac:(vm_compute; reflexivity)) 2%nat).
  - vm_compute. reflexivity.
  - vm_compute. reflexivity.
Defined.

Lemma progress_calls_follow_regions_witness :
  progress_calls (Fixture.run (Fixture.bases "A" 100) 20) =
    if progress_func Fixture.full_scheme
    then progress_of Fixture.full_scheme
           (scheme_regions (Fixture.run (Fixture.bases "A" 100) 20))
         ++ [(ref_len Fixture.full_scheme, ref_len Fixture.full_scheme)]
    else [].
Proof.
  unfold Fixture.run, Fixture.full_scheme.
  apply (progress_calls_follow_regions Fixture.design_one
           Fixture.reverse_complement Fixture.align_all Fixture.penalty_sum
           (Fixture.scheme_of (Fixture.bases "A" 100)) 20).
  vm_compute. reflexivity.
Defined.

Lemma returned_scheme_not_empty_witness :
  scheme_regions (Fixture.run Fixture.unknown_end 20) <> [].
Proof.
  unfold Fixture.run.
  apply (returned_scheme_not_empty Fixture.design_one
           Fixture.reverse_complement Fixture.align_all Fixture.penalty_sum
           (Fixture.scheme_of Fixture.unknown_end) 20).
  vm_compute. reflexivity.
Defined.

Lemma regions_make_progress_witness :
  start (left (Fixture.pair_of
                 (Fixture.region_of (Fixture.run (Fixture.bases "A" 100) 20) 1)))
    < left_limit (Fixture.region_of (Fixture.run (Fixture.bases "A" 100) 20) 2).
Proof.
  unfold Fixture.run.
  apply (proj2 (proj2 (regions_make_progress Fixture.design_one
                         Fixture.reverse_complement Fixture.align_all
                         Fixture.penalty_sum
                         (Fixture.scheme_of (Fixture.bases "A" 100)) 20
                         ltac:(vm_compute; reflexivity))) 1%nat
           (Fixture.region_of (Fixture.run (Fixture.bases "A" 100) 20) 1)).
  - vm_compute. reflexivity.
  - vm_compute. reflexivity.
  - vm_compute. reflexivity.
  - vm_compute. discriminate.
Defined.

Lemma later_regions_need_bases_left_witness :
  ref_len Fixture.full_scheme
    - start (right (Fixture.pair_of
                      (Fixture.region_of (Fixture.run (Fixture.bases "A" 100) 20) 0)))
    > amplicon_size_max Fixture.full_scheme.
Proof.
  unfold Fixture.run, Fixture.full_scheme.
  apply (later_regions_need_bases_left Fixture.design_one
           Fixture.reverse_complement Fixture.align_all Fixture.penalty_sum
           (Fixture.scheme_of (Fixture.bases "A" 100)) 20
           ltac:(vm_compute; reflexivity) 0%nat
           (Fixture.region_of (Fixture.run (Fixture.bases "A" 100) 20) 0)
           (Fixture.region_of (Fixture.run (Fixture.bases "A" 100) 20) 2)).
  - vm_compute. reflexivity.
  - vm_compute. reflexivity.
  - vm_compute. reflexivity.
Defined.

Lemma design_scheme_terminates_witness :
  outcome (Fixture.run (Fixture.bases "A" 100)
             (design_fuel Fixture.full_scheme)) <> OutOfFuel /\
  (length (scheme_regions (Fixture.run (Fixture.bases "A" 100)
                             (design_fuel Fixture.full_scheme)))
   < design_fuel Fixture.full_scheme)%nat.
Proof.
  unfold Fixture.run, Fixture.full_scheme.
  apply (design_scheme_terminates Fixture.design_one
           Fixture.reverse_complement Fixture.align_all Fixture.penalty_sum
           (Fixture.scheme_of (Fixture.bases "A" 100))).
  - intros seq offset p. apply design_one_places.
  - intros offset p. apply align_all_keeps_place.
  - vm_compute. reflexivity.
  - apply le_n.
Defined.

Lemma first_region_window_witness :
  (outcome (Fixture.run (Fixture.bases "A" 10) 1) = Raise SliceOutOfBoundsError /\
   run_log (Fixture.run (Fixture.bases "A" 10) 1) = [LWindow 0 0 10] /\
   progress_calls (Fixture.run (Fixture.bases "A" 10) 1) = [] /\
   scheme_regions (Fixture.run (Fixture.bases "A" 10) 1) = []) /\
  exists rest,
    run_log (Fixture.run (Fixture.bases "A" 100) 20) =
      LWindow 0 0 100 :: LRegion 1 1 :: LFinding 0 30 :: rest.
Proof.
  unfold Fixture.run. split.
  - apply (proj1 (first_region_window Fixture.design_one
                    Fixture.reverse_complement Fixture.align_all
                    Fixture.penalty_sum
                    (Fixture.scheme_of (Fixture.bases "A" 10)) 1 (le_n 1))).
    vm_compute. reflexivity.
  - apply (proj2 (first_region_window Fixture.design_one
                    Fixture.reverse_complement Fixture.align_all
                    Fixture.penalty_sum
                    (Fixture.scheme_of (Fixture.bases "A" 100)) 20
                    ltac:(repeat constructor))).
    vm_compute. discriminate.
Defined.
